(** * Avatar: image-loading status and fallback gating

    A shallow embedding of [packages/react/avatar/src/Avatar.tsx] together
    with the [MockImage] decode handle of its test file.  React's hooks are
    embedded as explicit state: a [useState] cell is a record field, a
    [useRef] cell is a reference into a heap of image handles, an effect with
    a dependency list runs when the dependency differs from the one of the
    previous commit, and its cleanup runs at teardown. *)

From stdpp Require Import base option list gmap strings.
From Stdlib Require Import ZArith.

Local Open Scope Z_scope.

(** ** Data model *)

(** [type ImageLoadingStatus = 'idle' | 'loading' | 'loaded' | 'error'] *)
Inductive ImageLoadingStatus := idle | loading | loaded | error.

#[global] Instance ImageLoadingStatus_eq_dec : EqDecision ImageLoadingStatus.
Proof. solve_decision. Defined.

(** The two notifications the loader subscribes to. *)
Inductive EventType := load | error_event.

#[global] Instance EventType_eq_dec : EqDecision EventType.
Proof. solve_decision. Defined.

(** JavaScript truthiness of a [string | undefined]: [undefined] and the
    empty string are falsy. *)
Definition truthy (src : option string) : bool :=
  match src with
  | None => false
  | Some s => negb (String.eqb s "")
  end.

(** The value [image.src !== src] compares against, when [src] is truthy. *)
Definition str (src : option string) : string := default "" src.

(** ** The decode handle ([MockImage], an [EventTarget]) *)

Module ImageModel.

(** A listener registered by [useImageLoadingStatus]: the closure
    [updateStatus(status)], which calls [setLoadingStatus(status)]. *)
Record Listener := { on : EventType; updateStatus : ImageLoadingStatus }.

#[global] Instance Listener_eq_dec : EqDecision Listener.
Proof. solve_decision. Defined.

Record MockImage := {
  _src : string;                 (* [_src: string = ''] *)
  listeners : list Listener      (* the EventTarget's listener list *)
}.

(** One call of a status-change callback. *)
Inductive Call :=
  | onLoadingStatusChange (status : ImageLoadingStatus)
  | onImageLoadingStatusChange (status : ImageLoadingStatus).

#[global] Instance Call_eq_dec : EqDecision Call.
Proof. solve_decision. Defined.

(** What the handle operations act on: the module-level [cache], the heap of
    handles (a handle is used by reference), the timers scheduled by the
    [src] setter (all with the same [DELAY], so they fire in order), and the
    spies of the test file. *)
Record World := {
  cache : gset string;                (* [const cache = new Set<string>()] *)
  naturalWidth_spy : option Z;        (* [spyOn(.., 'naturalWidth', 'get')] *)
  images : list MockImage;            (* handles, indexed by reference *)
  timers : list nat;                  (* pending [setTimeout]s, oldest first *)
  src_assignments : list (nat * string);   (* calls of the [src] setter *)
  addEventListener_calls : nat;       (* [addEventListenerSpy.mock.calls] *)
  removeEventListener_calls : nat;    (* [removeEventListenerSpy.mock.calls] *)
  calls : list Call                   (* callbacks invoked, oldest first *)
}.

Definition set_cache (f : gset string → gset string) (w : World) : World :=
  {| cache := f (cache w); naturalWidth_spy := naturalWidth_spy w;
     images := images w; timers := timers w;
     src_assignments := src_assignments w;
     addEventListener_calls := addEventListener_calls w;
     removeEventListener_calls := removeEventListener_calls w;
     calls := calls w |}.

Definition set_images (f : list MockImage → list MockImage) (w : World) : World :=
  {| cache := cache w; naturalWidth_spy := naturalWidth_spy w;
     images := f (images w); timers := timers w;
     src_assignments := src_assignments w;
     addEventListener_calls := addEventListener_calls w;
     removeEventListener_calls := removeEventListener_calls w;
     calls := calls w |}.

Definition set_timers (f : list nat → list nat) (w : World) : World :=
  {| cache := cache w; naturalWidth_spy := naturalWidth_spy w;
     images := images w; timers := f (timers w);
     src_assignments := src_assignments w;
     addEventListener_calls := addEventListener_calls w;
     removeEventListener_calls := removeEventListener_calls w;
     calls := calls w |}.

Definition log_src_assignment (a : nat * string) (w : World) : World :=
  {| cache := cache w; naturalWidth_spy := naturalWidth_spy w;
     images := images w; timers := timers w;
     src_assignments := src_assignments w ++ [a];
     addEventListener_calls := addEventListener_calls w;
     removeEventListener_calls := removeEventListener_calls w;
     calls := calls w |}.

Definition count_addEventListener (w : World) : World :=
  {| cache := cache w; naturalWidth_spy := naturalWidth_spy w;
     images := images w; timers := timers w;
     src_assignments := src_assignments w;
     addEventListener_calls := S (addEventListener_calls w);
     removeEventListener_calls := removeEventListener_calls w;
     calls := calls w |}.

Definition count_removeEventListener (w : World) : World :=
  {| cache := cache w; naturalWidth_spy := naturalWidth_spy w;
     images := images w; timers := timers w;
     src_assignments := src_assignments w;
     addEventListener_calls := addEventListener_calls w;
     removeEventListener_calls := S (removeEventListener_calls w);
     calls := calls w |}.

Definition log_calls (cs : list Call) (w : World) : World :=
  {| cache := cache w; naturalWidth_spy := naturalWidth_spy w;
     images := images w; timers := timers w;
     src_assignments := src_assignments w;
     addEventListener_calls := addEventListener_calls w;
     removeEventListener_calls := removeEventListener_calls w;
     calls := calls w ++ cs |}.

Definition fresh_image : MockImage := {| _src := ""; listeners := [] |}.

Definition deref (w : World) (image : nat) : MockImage :=
  default fresh_image (images w !! image).

(** Effectful code threads the world. *)
Definition Eff (A : Type) : Type := World → A * World.

Definition ret {A} (a : A) : Eff A := λ w, (a, w).
Definition bind {A B} (m : Eff A) (f : A → Eff B) : Eff B :=
  λ w, let '(a, w') := m w in f a w'.

Notation "'let*' x ':=' m 'in' k" := (bind m (λ x, k))
  (at level 10, x name, m at level 100, k at level 200).
Notation "m ';;;' k" := (bind m (λ _, k))
  (at level 100, k at level 200, right associativity).

Definition exec {A} (m : Eff A) (w : World) : World := snd (m w).
Definition eval {A} (m : Eff A) (w : World) : A := fst (m w).

(** [new window.Image()] *)
Definition new_Image : Eff nat := λ w,
  (length (images w), set_images (λ h, h ++ [fresh_image]) w).

(** [get src() { return this._src; }] *)
Definition get_src (image : nat) : Eff string := λ w, (_src (deref w image), w).

(** [set src(src) { if (!src) return; this._src = src; setTimeout(.., DELAY) }] *)
Definition set_src (image : nat) (src : string) : Eff unit := λ w,
  let w := log_src_assignment (image, src) w in
  if String.eqb src "" then (tt, w)
  else
    (tt,
     set_timers (λ t, t ++ [image])
       (set_images
          <[image := {| _src := src; listeners := listeners (deref w image) |}]>
          w)).

(** [get complete() { return !this.src || cache.has(this.src); }] *)
Definition complete (image : nat) : Eff bool := λ w,
  let s := _src (deref w image) in
  (String.eqb s "" || bool_decide (s ∈ cache w), w).

(** [get naturalWidth() { return this.complete ? 300 : 0; }], unless the
    getter is replaced by [spy.mockReturnValue(v)]. *)
Definition naturalWidth (image : nat) : Eff Z := λ w,
  match naturalWidth_spy w with
  | Some v => (v, w)
  | None => (if eval (complete image) w then 300 else 0, w)
  end.

(** [EventTarget.addEventListener] and [removeEventListener]. *)
Definition addEventListener (image : nat) (l : Listener) : Eff unit := λ w,
  (tt,
   count_addEventListener
     (set_images
        <[image := {| _src := _src (deref w image);
                      listeners := listeners (deref w image) ++ [l] |}]> w)).

Definition removeEventListener (image : nat) (l : Listener) : Eff unit := λ w,
  (tt,
   count_removeEventListener
     (set_images
        <[image := {| _src := _src (deref w image);
                      listeners :=
                        filter (λ l', l' ≠ l) (listeners (deref w image)) |}]>
        w)).

(** ** [setImageSrcAndGetInitialState] *)

Definition setImageSrcAndGetInitialState (image : nat) (src : option string)
  : Eff ImageLoadingStatus :=
  if negb (truthy src) then ret error
  else
    let* cur := get_src image in
    (if negb (String.eqb cur (str src)) then set_src image (str src)
     else ret tt);;;
    let* c := complete image in
    if c then
      let* n := naturalWidth image in
      ret (if 0 <? n then loaded else loading)
    else ret loading.

Definition world0 (c : gset string) (spy : option Z) : World :=
  {| cache := c; naturalWidth_spy := spy; images := []; timers := [];
     src_assignments := []; addEventListener_calls := 0;
     removeEventListener_calls := 0; calls := [] |}.

(** ** [Avatar] (Root) and [AvatarImage] *)

(** The hook state of one mounted [AvatarImage]. *)
Record AvatarImage := {
  image : nat;                          (* [React.useRef(..).current] *)
  loadingStatus : ImageLoadingStatus;   (* [React.useState(..)] *)
  src : option string
    (* [props.src] at the last commit, which is also the dependency [src]
       the layout effect compares with *)
}.

(** A mounted tree [<Avatar.Root> .. <Avatar.Image src={src}/> </Avatar.Root>]. *)
Record Avatar := {
  imageLoadingStatus : ImageLoadingStatus;   (* the Root's [useState('idle')] *)
  Image : AvatarImage
}.

Record State := { world : World; tree : option Avatar }.

Inductive Element := img (src : option string).

(** The value [AvatarImage] returns:
    [imageLoadingStatus === 'loaded' ? <Primitive.img .. src={src} /> : null] *)
Definition AvatarImage_render (i : AvatarImage) : option Element :=
  if decide (loadingStatus i = loaded) then Some (img (src i)) else None.

(** [handleLoadingStatusChange]: the instance-local callback, then the
    setter shared by the Root.  The result is the Root's new state. *)
Definition handleLoadingStatusChange (status : ImageLoadingStatus)
  : Eff ImageLoadingStatus := λ w,
  (status,
   log_calls [onLoadingStatusChange status; onImageLoadingStatusChange status] w).

(** The body of the layout effect of [AvatarImage], run with the value of
    [imageLoadingStatus] of the render being committed; [root] is the Root's
    state before it. *)
Definition notify_effect (imageLoadingStatus root : ImageLoadingStatus)
  : Eff ImageLoadingStatus :=
  if decide (imageLoadingStatus ≠ idle)
  then handleLoadingStatusChange imageLoadingStatus
  else ret root.

(** Modelled from the spec: [useCallbackRef] and [useLayoutEffect] are
    packages of the repository that are not in this file.  By section 6 the
    first gives a callback "a stable identity across re-renders" and the
    second runs "synchronously after layout but before paint", its cleanup at
    teardown.  So of the dependencies
    [[imageLoadingStatus, handleLoadingStatusChange]] only the first ever
    changes.

    [setLoadingStatus(status)]: a state that stays the same causes no render;
    a new state causes one, and the commit of that render runs the effect,
    its dependency having changed. *)
Definition setLoadingStatus (status : ImageLoadingStatus) (t : Avatar)
  : Eff Avatar :=
  if decide (status = loadingStatus (Image t)) then ret t
  else
    let* root := notify_effect status (imageLoadingStatus t) in
    ret {| imageLoadingStatus := root;
           Image := {| image := image (Image t); loadingStatus := status;
                       src := src (Image t) |} |}.

Definition handleLoad : Listener := {| on := load; updateStatus := loaded |}.
Definition handleError : Listener := {| on := error_event; updateStatus := error |}.

(** The layout effect of [useImageLoadingStatus] without dependencies, which
    subscribes to the handle, and the cleanup it returns. *)
Definition subscribe (image : nat) : Eff unit :=
  addEventListener image handleLoad;;;
  addEventListener image handleError.

Definition unsubscribe (image : nat) : Eff unit :=
  removeEventListener image handleLoad;;;
  removeEventListener image handleError.

(** The first render of [AvatarImage], before any effect has run: the handle
    is created and the state initialised. *)
Definition first_render (src : option string) : Eff AvatarImage :=
  let* image := new_Image in
  let* status := setImageSrcAndGetInitialState image src in
  ret {| image := image; loadingStatus := status; src := src |}.

(** The commit of the first render: the layout effects in the order of their
    declaration (the one with dependencies [[src]], the subscribing one, the
    one of [AvatarImage]), then the re-render the [setLoadingStatus] of the
    first one asks for. *)
Definition commit_mount (i : AvatarImage) : Eff Avatar :=
  let* status := setImageSrcAndGetInitialState (image i) (src i) in
  subscribe (image i);;;
  let* root := notify_effect (loadingStatus i) idle in
  setLoadingStatus status {| imageLoadingStatus := root; Image := i |}.

Definition mount (src : option string) : Eff Avatar :=
  let* i := first_render src in commit_mount i.

(** A render of a mounted tree with a [src] prop: the layout effect with
    dependencies [[src]] runs when the prop differs from the last one. *)
Definition rerender (src' : option string) (t : Avatar) : Eff Avatar :=
  if decide (src' = src (Image t)) then ret t
  else
    let* status := setImageSrcAndGetInitialState (image (Image t)) src' in
    setLoadingStatus status
      {| imageLoadingStatus := imageLoadingStatus t;
         Image := {| image := image (Image t);
                     loadingStatus := loadingStatus (Image t);
                     src := src' |} |}.

(** Teardown: the cleanup of the subscribing effect. *)
Definition unmount (t : Avatar) : Eff unit := unsubscribe (image (Image t)).

(** [image.dispatchEvent(new Event(type))]: every listener of that type on
    the handle is called, in the order of registration.  A listener is a
    closure over the [setLoadingStatus] of the instance that owns the handle;
    it has no effect once that instance is gone. *)
Fixpoint call_listeners (ls : list Listener) (type : EventType)
    (owner : nat) (t : option Avatar) : Eff (option Avatar) :=
  match ls with
  | [] => ret t
  | l :: ls =>
      if decide (on l = type) then
        match t with
        | Some a =>
            if decide (image (Image a) = owner) then
              let* a' := setLoadingStatus (updateStatus l) a in
              call_listeners ls type owner (Some a')
            else call_listeners ls type owner t
        | None => call_listeners ls type owner t
        end
      else call_listeners ls type owner t
  end.

Definition dispatchEvent (image : nat) (type : EventType) (t : option Avatar)
  : Eff (option Avatar) := λ w,
  call_listeners (listeners (deref w image)) type image t w.

(** The timer of the [src] setter:
    [this.dispatchEvent(new Event('load')); cache.add(this.src);] *)
Definition timer_callback (image : nat) (t : option Avatar)
  : Eff (option Avatar) :=
  let* t' := dispatchEvent image load t in
  let* s := get_src image in
  (λ w, (t', set_cache (λ c, {[s]} ∪ c) w)).

(** What can happen to the avatar. *)
Inductive Event :=
  | Render (src : option string)   (* [render(ui(src))] or [rerender(ui(src))] *)
  | Unmount                        (* [rendered.unmount()] *)
  | TimerFires                     (* the oldest pending timer of a handle *)
  | Dispatch (image : nat) (type : EventType).
      (* the platform reports on a handle, as a failed decode does with
         ['error'] *)

Definition step (e : Event) (st : State) : State :=
  match e, tree st with
  | Render src, None =>
      let '(t, w) := mount src (world st) in {| world := w; tree := Some t |}
  | Render src, Some t =>
      let '(t', w) := rerender src t (world st) in
      {| world := w; tree := Some t' |}
  | Unmount, None => st
  | Unmount, Some t =>
      {| world := exec (unmount t) (world st); tree := None |}
  | TimerFires, _ =>
      match timers (world st) with
      | [] => st
      | image :: rest =>
          let '(t', w) :=
            timer_callback image (tree st) (set_timers (λ _, rest) (world st)) in
          {| world := w; tree := t' |}
      end
  | Dispatch image type, _ =>
      let '(t', w) := dispatchEvent image type (tree st) (world st) in
      {| world := w; tree := t' |}
  end.

Definition run (es : list Event) (st : State) : State :=
  foldl (λ st e, step e st) st es.

Definition init (c : gset string) (spy : option Z) : State :=
  {| world := world0 c spy; tree := None |}.

Definition rendered (st : State) : option Element :=
  t ← tree st; AvatarImage_render (Image t).

Definition status (st : State) : option ImageLoadingStatus :=
  loadingStatus ∘ Image <$> tree st.

(** ** Notions the properties of the loader are stated with *)

(** Two worlds that differ by nothing a subscription or a callback can see. *)
Record same_subscriptions (w w' : World) : Prop := {
  ss_length : length (images w') = length (images w);
  ss_listeners : ∀ k, listeners (deref w' k) = listeners (deref w k);
  ss_add : addEventListener_calls w' = addEventListener_calls w;
  ss_remove : removeEventListener_calls w' = removeEventListener_calls w;
}.

(** The world after [if (image.src !== src) { image.src = src; }]. *)
Definition assigned (image : nat) (src : option string) (w : World) : World :=
  if negb (String.eqb (_src (deref w image)) (str src))
  then exec (set_src image (str src)) w else w.

(** [image.complete && image.naturalWidth > 0] *)
Definition ready (image : nat) (w : World) : bool :=
  eval (complete image) w && (0 <? eval (naturalWidth image) w).

(** The callbacks due when the status of the mounted instance goes from
    [old] to [new] ([None]: no instance is mounted): the instance-local one
    first, then the setter of the Root. *)
Definition notified (old : option ImageLoadingStatus)
    (new : option ImageLoadingStatus) : list Call :=
  match new with
  | Some s =>
      if decide (old = Some s) then []
      else [onLoadingStatusChange s; onImageLoadingStatusChange s]
  | None => []
  end.

(** The Root has been told the status of its image. *)
Definition in_sync (t : Avatar) : Prop :=
  loadingStatus (Image t) ≠ idle ∧
  imageLoadingStatus t = loadingStatus (Image t).

(** The subscriptions of a world whose mounted instance, if any, owns the
    handle [owner]: that handle carries the two listeners of the instance,
    no other handle carries any, and the spies are balanced. *)
Record handles_ok (w : World) (owner : option nat) : Prop := {
  ok_owner : ∀ k, owner = Some k → (k < length (images w))%nat;
  ok_listeners : ∀ k,
    listeners (deref w k) =
      if decide (owner = Some k) then [handleLoad; handleError] else [];
  ok_balance :
    addEventListener_calls w =
      (removeEventListener_calls w +
       match owner with Some _ => 2 | None => 0 end)%nat
}.

(** The handle of the mounted instance. *)
Definition owner (t : option Avatar) : option nat := image ∘ Image <$> t.

(** What holds of every state the avatar can reach. *)
Record Inv (st : State) : Prop := {
  inv_handles : handles_ok (world st) (owner (tree st));
  inv_sync : ∀ t, tree st = Some t → in_sync t
}.

(** The status [handleLoad] and [handleError] set. *)
Definition status_for (type : EventType) : ImageLoadingStatus :=
  match type with load => loaded | error_event => error end.

(** The tree once [setLoadingStatus s] and its notification are through. *)
Definition with_status (s : ImageLoadingStatus) (a : Avatar) : Avatar :=
  {| imageLoadingStatus := s;
     Image := {| image := image (Image a); loadingStatus := s;
                 src := src (Image a) |} |}.

(** The tree after a notification of [type] on the handle [h]. *)
Definition dispatched (h : nat) (type : EventType) (t : option Avatar)
  : option Avatar :=
  match t with
  | Some a => if decide (image (Image a) = h)
              then Some (with_status (status_for type) a) else t
  | None => None
  end.

(** The [src] prop of the mounted instance. *)
Definition src_of (st : State) : option (option string) :=
  src ∘ Image <$> tree st.

(** How many times an event calls [addEventListener], and
    [removeEventListener]. *)
Definition adds (e : Event) (st : State) : nat :=
  match e, tree st with Render _, None => 2 | _, _ => 0 end.

Definition removes (e : Event) (st : State) : nat :=
  match e, tree st with Unmount, Some _ => 2 | _, _ => 0 end.

(** What one event does to a reachable state. *)
Record step_facts (e : Event) (st st' : State) : Prop := {
  sf_inv : Inv st';
  sf_calls :
    calls (world st') = calls (world st) ++ notified (status st) (status st');
  sf_adds :
    addEventListener_calls (world st') =
      (addEventListener_calls (world st) + adds e st)%nat;
  sf_removes :
    removeEventListener_calls (world st') =
      (removeEventListener_calls (world st) + removes e st)%nat;
  sf_src :
    src_of st' =
      match e with
      | Render s => Some s
      | Unmount => None
      | _ => src_of st
      end
}.

(** The [src] prop of the latest render, read off the events. *)
Definition latest_src (es : list Event) : option (option string) :=
  foldl (λ o e, match e with
                | Render s => Some s
                | Unmount => None
                | _ => o
                end) None es.

(** ** Notions the further properties of the loader are stated with *)

(** Whether [setImageSrcAndGetInitialState] assigns: the source is truthy and
    is not the one the handle holds. *)
Definition assigns (image : nat) (src : option string) (w : World) : bool :=
  truthy src && negb (String.eqb (_src (deref w image)) (str src)).

(** The part of the world the loader reads and the handle setter writes. *)
Record same_sources (w w' : World) : Prop := {
  sm_cache : cache w' = cache w;
  sm_spy : naturalWidth_spy w' = naturalWidth_spy w;
  sm_assignments : src_assignments w' = src_assignments w;
  sm_timers : timers w' = timers w;
  sm_length : length (images w') = length (images w);
  sm_src : ∀ k, _src (deref w' k) = _src (deref w k)
}.

(** How an event changes the part of the world the loader reads. *)
Definition after_event (e : Event) (st : State) : World :=
  match e, tree st with
  | Render src, None =>
      exec (setImageSrcAndGetInitialState (length (images (world st))) src)
        (exec new_Image (world st))
  | Render src, Some t =>
      if decide (src = ImageModel.src (Image t)) then world st
      else exec (setImageSrcAndGetInitialState (image (Image t)) src) (world st)
  | TimerFires, _ =>
      match timers (world st) with
      | [] => world st
      | image :: rest =>
          set_cache (λ c, {[_src (deref (world st) image)]} ∪ c)
            (set_timers (λ _, rest) (world st))
      end
  | _, _ => world st
  end.

(** What the spy lets [naturalWidth > 0] be for a complete image. *)
Definition width_ok (w : World) : bool :=
  match naturalWidth_spy w with Some v => 0 <? v | None => true end.

(** The status of a source, read off the cache alone. *)
Definition status_of_source (src : option string) (w : World)
  : ImageLoadingStatus :=
  if truthy src then
    if bool_decide (str src ∈ cache w) && width_ok w then loaded else loading
  else error.

(** The handle of the mounted image holds its source, when that is truthy. *)
Definition holds_source (st : State) : Prop :=
  ∀ k s, owner (tree st) = Some k → src_of st = Some s → truthy s = true →
         _src (deref (world st) k) = str s.

(** The events that are not a render. *)
Definition not_Render (e : Event) : Prop := ∀ s, e ≠ Render s.

End ImageModel.

(** ** [AvatarFallback] and the scheduler of the platform *)

Module FallbackModel.

(** A pending [window.setTimeout]: the only callback this component schedules
    is [() => setCanRender(true)], a closure over the state setter of the
    instance [owner] that scheduled it. *)
Record Timer := { timer_id : nat; due : Z; owner : nat }.

(** The scheduler of the host platform. *)
Record Window := {
  now : Z;                  (* the clock, in milliseconds *)
  pending : list Timer;     (* scheduled and neither fired nor cleared *)
  next_id : nat;            (* the next timer id [setTimeout] returns *)
  fired : list nat          (* ids of the timers whose callback has run *)
}.

(** [window.setTimeout(callback, delay)]: a negative delay counts as zero. *)
Definition setTimeout (owner : nat) (delay : Z) (w : Window) : nat * Window :=
  (next_id w,
   {| now := now w;
      pending := pending w ++
                 [{| timer_id := next_id w; due := now w + Z.max 0 delay;
                     owner := owner |}];
      next_id := S (next_id w);
      fired := fired w |}).

(** [window.clearTimeout(timerId)] *)
Definition clearTimeout (timerId : nat) (w : Window) : Window :=
  {| now := now w;
     pending := filter (λ t, timer_id t ≠ timerId) (pending w);
     next_id := next_id w;
     fired := fired w |}.

(** The hook state of one mounted [AvatarFallback]. *)
Record AvatarFallback := {
  key : nat;               (* which mount this instance is *)
  canRender : bool;        (* [React.useState(delayMs === undefined)] *)
  delayMs : option Z;      (* [props.delayMs] at the last commit: the
                              dependency of the effect *)
  cleanup : option nat     (* the [timerId] the cleanup closure will clear *)
}.

Record State := {
  window : Window;
  mounts : nat;                      (* instances mounted so far *)
  fallback : option AvatarFallback
}.

Inductive Element := span.

(** The value [AvatarFallback] returns:
    [canRender && context.imageLoadingStatus !== 'loaded' ? <span/> : null] *)
Definition AvatarFallback_render (i : AvatarFallback)
    (imageLoadingStatus : ImageLoadingStatus) : option Element :=
  if canRender i && bool_decide (imageLoadingStatus ≠ loaded)
  then Some span else None.

(** The body of the effect: the timer is set only for a defined delay, and
    only then is there a cleanup. *)
Definition effect (key : nat) (delayMs : option Z) (w : Window)
  : option nat * Window :=
  match delayMs with
  | Some ms => let '(timerId, w') := setTimeout key ms w in (Some timerId, w')
  | None => (None, w)
  end.

Definition run_cleanup (c : option nat) (w : Window) : Window :=
  match c with
  | Some timerId => clearTimeout timerId w
  | None => w
  end.

Definition mount (key : nat) (delayMs : option Z) (w : Window)
  : AvatarFallback * Window :=
  let '(c, w') := effect key delayMs w in
  ({| key := key; canRender := bool_decide (delayMs = None);
      delayMs := delayMs; cleanup := c |}, w').

(** A render of a mounted instance: the effect runs again, after the cleanup
    of its previous run, when [delayMs] differs from the last one. *)
Definition rerender (delayMs' : option Z) (i : AvatarFallback) (w : Window)
  : AvatarFallback * Window :=
  if decide (delayMs' = delayMs i) then (i, w)
  else
    let '(c, w') := effect (key i) delayMs' (run_cleanup (cleanup i) w) in
    ({| key := key i; canRender := canRender i; delayMs := delayMs';
        cleanup := c |}, w').

Definition unmount (i : AvatarFallback) (w : Window) : Window :=
  run_cleanup (cleanup i) w.

(** The callback of a timer, [() => setCanRender(true)]. *)
Definition setCanRender_true (owner : nat) (f : option AvatarFallback)
  : option AvatarFallback :=
  match f with
  | Some i =>
      if decide (key i = owner)
      then Some {| key := key i; canRender := true; delayMs := delayMs i;
                   cleanup := cleanup i |}
      else f
  | None => None
  end.

(** The clock moves on by [dt] and the timers that are due by then run. *)
Definition advance (dt : Z) (st : State) : State :=
  let w := window st in
  let now' := now w + Z.max 0 dt in
  let ready := filter (λ t, due t ≤ now') (pending w) in
  {| window := {| now := now';
                  pending := filter (λ t, ¬ due t ≤ now') (pending w);
                  next_id := next_id w;
                  fired := fired w ++ map timer_id ready |};
     mounts := mounts st;
     fallback := foldl (λ f t, setCanRender_true (owner t) f) (fallback st) ready |}.

Inductive Event :=
  | Render (delayMs : option Z)
  | Unmount
  | Advance (dt : Z).

Definition step (e : Event) (st : State) : State :=
  match e, fallback st with
  | Render d, None =>
      let '(i, w) := mount (mounts st) d (window st) in
      {| window := w; mounts := S (mounts st); fallback := Some i |}
  | Render d, Some i =>
      let '(i', w) := rerender d i (window st) in
      {| window := w; mounts := mounts st; fallback := Some i' |}
  | Unmount, None => st
  | Unmount, Some i =>
      {| window := unmount i (window st); mounts := mounts st; fallback := None |}
  | Advance dt, _ => advance dt st
  end.

Definition run (es : list Event) (st : State) : State :=
  foldl (λ st e, step e st) st es.

Definition init (now0 : Z) : State :=
  {| window := {| now := now0; pending := []; next_id := 1; fired := [] |};
     mounts := 0; fallback := None |}.

Definition shown (st : State) (imageLoadingStatus : ImageLoadingStatus)
  : option Element :=
  i ← fallback st; AvatarFallback_render i imageLoadingStatus.

(** Whether, along [es], the scheduler has run with the clock at or past
    [due], the clock being at [now] before [es]. *)
Fixpoint delay_elapsed (now due : Z) (es : list Event) : bool :=
  match es with
  | [] => false
  | Advance dt :: es =>
      let now' := now + Z.max 0 dt in
      bool_decide (due ≤ now') || delay_elapsed now' due es
  | _ :: es => delay_elapsed now due es
  end.

(** The events of a trace along which the delay stays [d]. *)
Definition waits (d : option Z) (e : Event) : Prop :=
  e = Render d ∨ ∃ dt, e = Advance dt.

(** At most one timer is pending, and it is the one the mounted instance
    will clear; timer ids are handed out in increasing order. *)
Record ok (st : State) : Prop := {
  ok_pending :
    pending (window st) = [] ∨
    ∃ i t, fallback st = Some i ∧ cleanup i = Some (timer_id t) ∧
           owner t = key i ∧ pending (window st) = [t] ∧
           (timer_id t < next_id (window st))%nat ∧ timer_id t ∉ fired (window st);
  ok_fired : ∀ k, k ∈ fired (window st) → (k < next_id (window st))%nat;
  ok_cleanup : ∀ i timerId,
    fallback st = Some i → cleanup i = Some timerId →
    (timerId < next_id (window st))%nat
}.

(** A timer id that was handed out, is not pending and has not fired. *)
Definition gone (timerId : nat) (w : Window) : Prop :=
  (timerId < next_id w)%nat ∧ (timerId ∉ (timer_id <$> pending w)) ∧
  (timerId ∉ fired w).

(** The time that passes along the events. *)
Definition elapsed (es : list Event) : Z :=
  foldr (λ e acc, match e with Advance dt => Z.max 0 dt + acc | _ => acc end)
    0 es.

(** The timers of a reachable state: none without a mounted instance or
    without a delay; with a delay, the one timer the instance will clear,
    due no later than the delay from now, unless it has already made the
    fallback eligible. *)
Definition one_timer (st : State) : Prop :=
  match fallback st with
  | None => pending (window st) = []
  | Some i =>
      match delayMs i with
      | None => pending (window st) = [] ∧ cleanup i = None
      | Some ms =>
          (pending (window st) = [] ∧ canRender i = true) ∨
          ∃ t, pending (window st) = [t] ∧ cleanup i = Some (timer_id t) ∧
               owner t = key i ∧ due t ≤ now (window st) + Z.max 0 ms
      end
  end.

End FallbackModel.

(** ** The whole avatar: a Root with a fallback and an image

    [<Avatar.Root> <Avatar.Fallback delayMs={delayMs}/> <Avatar.Image
    src={src}/> </Avatar.Root>], as the test file renders it.  The two
    children share the state of the Root through the context. *)

Module AvatarTree.

Record State := {
  image_side : ImageModel.State;        (* the Root and its image *)
  fallback_side : FallbackModel.State   (* its fallback *)
}.

Inductive Event :=
  | Render (delayMs : option Z) (src : option string)
  | Unmount
  | TimerFires
  | Dispatch (image : nat) (type : EventType)
  | Advance (dt : Z).

Definition step (e : Event) (st : State) : State :=
  match e with
  | Render delayMs src =>
      {| image_side := ImageModel.step (ImageModel.Render src) (image_side st);
         fallback_side :=
           FallbackModel.step (FallbackModel.Render delayMs) (fallback_side st) |}
  | Unmount =>
      {| image_side := ImageModel.step ImageModel.Unmount (image_side st);
         fallback_side :=
           FallbackModel.step FallbackModel.Unmount (fallback_side st) |}
  | TimerFires =>
      {| image_side := ImageModel.step ImageModel.TimerFires (image_side st);
         fallback_side := fallback_side st |}
  | Dispatch image type =>
      {| image_side :=
           ImageModel.step (ImageModel.Dispatch image type) (image_side st);
         fallback_side := fallback_side st |}
  | Advance dt =>
      {| image_side := image_side st;
         fallback_side :=
           FallbackModel.step (FallbackModel.Advance dt) (fallback_side st) |}
  end.

Definition run (es : list Event) (st : State) : State :=
  foldl (λ st e, step e st) st es.

Definition init (c : gset string) (spy : option Z) (now0 : Z) : State :=
  {| image_side := ImageModel.init c spy;
     fallback_side := FallbackModel.init now0 |}.

(** [context.imageLoadingStatus], the state of the Root. *)
Definition context (st : State) : ImageLoadingStatus :=
  match ImageModel.tree (image_side st) with
  | Some t => ImageModel.imageLoadingStatus t
  | None => idle
  end.

(** What the two children render. *)
Definition image_element (st : State) : option ImageModel.Element :=
  ImageModel.rendered (image_side st).

Definition fallback_element (st : State) : option FallbackModel.Element :=
  FallbackModel.shown (fallback_side st) (context st).

(** The [canRender] flag of the mounted fallback. *)
Definition eligible (st : State) : bool :=
  match FallbackModel.fallback (fallback_side st) with
  | Some i => FallbackModel.canRender i
  | None => false
  end.

(** The two children are mounted and torn down together. *)
Definition together (st : State) : Prop :=
  ImageModel.tree (image_side st) = None ↔
  FallbackModel.fallback (fallback_side st) = None.

End AvatarTree.

(** * Properties of the image loader *)

Module ImageLoader.
Import ImageModel.

Example setImage_uncached :
  eval (let* img := new_Image in
        setImageSrcAndGetInitialState img (Some "/test.png"%string))
    (world0 ∅ None) = loading.
Proof. reflexivity. Qed.

Example setImage_cached :
  eval (let* img := new_Image in
        setImageSrcAndGetInitialState img (Some "/test.png"%string))
    (world0 {["/test.png"%string]} None) = loaded.
Proof. vm_compute. reflexivity. Qed.

(** The scenarios of the test file. *)
Example working_image :
  let st := run [Render (Some "/test.png"%string)] (init ∅ None) in
  rendered st = None ∧
  rendered (step TimerFires st) = Some (img (Some "/test.png"%string)) ∧
  calls (world (step TimerFires st)) =
    [onLoadingStatusChange loading; onImageLoadingStatusChange loading;
     onLoadingStatusChange loaded; onImageLoadingStatusChange loaded].
Proof. vm_compute. auto. Qed.

Example changing_src :
  let st := run [Render (Some "/test.png"%string); TimerFires;
                 Render (Some "/test2.png"%string)] (init ∅ None) in
  rendered st = None ∧
  rendered (step TimerFires st) = Some (img (Some "/test2.png"%string)).
Proof. vm_compute. auto. Qed.

Example immediately_after_it_is_cached :
  rendered (run [Render (Some "/test.png"%string); TimerFires; Unmount;
                 Render (Some "/test.png"%string)] (init ∅ None))
  = Some (img (Some "/test.png"%string)).
Proof. vm_compute. reflexivity. Qed.

Example no_src :
  rendered (run [Render (Some "/test.png"%string); Render None] (init ∅ None))
  = None ∧
  rendered (run [Render (Some "/test.png"%string); Render None; Unmount;
                 Render None] (init ∅ None)) = None.
Proof. vm_compute. auto. Qed.

Example image_has_no_data :
  status (run [Render (Some "/test.png"%string)]
            (init {["/test.png"%string]} (Some 0))) = Some loading.
Proof. vm_compute. reflexivity. Qed.

Example does_not_leak_event_listeners :
  let w := world (run [Render (Some "/test.png"%string); Unmount] (init ∅ None)) in
  addEventListener_calls w = 2%nat ∧ removeEventListener_calls w = 2%nat.
Proof. vm_compute. auto. Qed.

Lemma deref_insert (w : World) (i k : nat) (m : MockImage) :
  deref (set_images <[i := m]> w) k =
  if decide (k = i ∧ (i < length (images w))%nat) then m else deref w k.
Proof.
  unfold deref; simpl. case_decide as H.
  - destruct H as [-> H]. by rewrite list_lookup_insert_eq.
  - destruct (decide (k = i)) as [->|Hne].
    + rewrite list_insert_ge; [done | lia].
    + by rewrite list_lookup_insert_ne.
Qed.

Lemma deref_set_timers f w k : deref (set_timers f w) k = deref w k.
Proof. done. Qed.

Lemma same_subscriptions_refl w : same_subscriptions w w.
Proof. by split. Qed.

Lemma set_src_subscriptions image s w :
  same_subscriptions w (exec (set_src image s) w).
Proof.
  unfold exec, set_src. destruct (String.eqb s ""); simpl.
  - by split.
  - split; simpl; try done.
    + by rewrite length_insert.
    + intros k. set (w1 := log_src_assignment (image, s) w).
      rewrite deref_set_timers, deref_insert.
      case_decide as Hk; [by destruct Hk as [-> _] | done].
Qed.

Lemma setImage_falsy image src w :
  truthy src = false → setImageSrcAndGetInitialState image src w = (error, w).
Proof. unfold setImageSrcAndGetInitialState. by intros ->. Qed.

Lemma setImage_truthy image src w :
  truthy src = true →
  setImageSrcAndGetInitialState image src w =
    (if ready image (assigned image src w) then loaded else loading,
     assigned image src w).
Proof.
  unfold setImageSrcAndGetInitialState, assigned, ready. intros ->; simpl.
  unfold bind, get_src, ret, exec, eval.
  destruct (negb _); simpl.
  - destruct (set_src image (str src) w) as [[] w1]; simpl.
    unfold complete, naturalWidth, eval, ret; simpl.
    destruct (_ || _) eqn:E; simpl; rewrite ?E; [|done].
    by destruct (naturalWidth_spy w1).
  - unfold complete, naturalWidth, eval, ret; simpl.
    destruct (_ || _) eqn:E; simpl; rewrite ?E; [|done].
    by destruct (naturalWidth_spy w).
Qed.

Lemma assigned_subscriptions image src w :
  same_subscriptions w (assigned image src w).
Proof.
  unfold assigned. destruct (negb _);
    [apply set_src_subscriptions | apply same_subscriptions_refl].
Qed.

Lemma setImage_subscriptions image src w :
  same_subscriptions w (exec (setImageSrcAndGetInitialState image src) w).
Proof.
  unfold exec. destruct (truthy src) eqn:Hs.
  - rewrite setImage_truthy by done. apply assigned_subscriptions.
  - rewrite setImage_falsy by done. apply same_subscriptions_refl.
Qed.

Lemma setImage_not_idle image src w :
  eval (setImageSrcAndGetInitialState image src) w ≠ idle.
Proof.
  unfold eval. destruct (truthy src) eqn:Hs.
  - rewrite setImage_truthy by done. simpl. by destruct (ready _ _).
  - by rewrite setImage_falsy.
Qed.

Lemma assigned_src image src w :
  truthy src = true → (image < length (images w))%nat →
  _src (deref (assigned image src w) image) = str src.
Proof.
  intros Hs Hi. unfold assigned.
  destruct (String.eqb _ _) eqn:E; simpl.
  - by apply String.eqb_eq in E.
  - unfold exec, set_src.
    assert (String.eqb (str src) "" = false) as ->.
    { destruct src as [s|]; simpl in *; [|done]. by destruct (String.eqb s ""). }
    simpl. rewrite deref_set_timers, deref_insert.
    rewrite decide_True; [done | by split].
Qed.

Lemma assigned_idem image src w :
  truthy src = true → (image < length (images w))%nat →
  assigned image src (assigned image src w) = assigned image src w.
Proof.
  intros Hs Hi. unfold assigned at 1.
  rewrite assigned_src by done. by rewrite String.eqb_refl.
Qed.

(** Evaluating twice in a row is evaluating once. *)
Lemma setImage_idem image src w :
  (image < length (images w))%nat →
  let '(s, w') := setImageSrcAndGetInitialState image src w in
  setImageSrcAndGetInitialState image src w' = (s, w').
Proof.
  intros Hi. destruct (truthy src) eqn:Hs.
  - rewrite setImage_truthy by done. rewrite setImage_truthy by done.
    by rewrite assigned_idem.
  - rewrite setImage_falsy by done. by rewrite setImage_falsy.
Qed.

Lemma setLoadingStatus_spec s t w :
  s ≠ idle → in_sync t →
  setLoadingStatus s t w =
    ({| imageLoadingStatus := s;
        Image := {| image := image (Image t); loadingStatus := s;
                    src := src (Image t) |} |},
     log_calls (notified (Some (loadingStatus (Image t))) (Some s)) w).
Proof.
  intros Hs [Hn Heq]. unfold setLoadingStatus, notified.
  destruct (decide (s = loadingStatus (Image t))) as [->|Hne].
  - rewrite decide_True by done. unfold ret. f_equal.
    + destruct t as [r [i l sr]]; simpl in *. by subst.
    + destruct w; unfold log_calls; simpl. by rewrite app_nil_r.
  - rewrite decide_False by congruence.
    unfold bind, notify_effect. rewrite decide_True by done. done.
Qed.

Lemma mount_spec src w :
  let image := length (images w) in
  let '(s, w1) := setImageSrcAndGetInitialState image src (exec new_Image w) in
  mount src w =
    ({| imageLoadingStatus := s;
        Image := {| image := image; loadingStatus := s; src := src |} |},
     log_calls [onLoadingStatusChange s; onImageLoadingStatusChange s]
       (exec (subscribe image) w1)).
Proof.
  intros image.
  pose proof (setImage_idem image src (exec new_Image w)) as Hidem.
  pose proof (setImage_not_idle image src (exec new_Image w)) as Hidle.
  unfold eval in Hidle.
  destruct (setImageSrcAndGetInitialState image src (exec new_Image w))
    as [s w1] eqn:H1.
  simpl in Hidle.
  assert (image < length (images (exec new_Image w)))%nat as Hlt.
  { unfold exec, new_Image; simpl. rewrite length_app; simpl. subst image. lia. }
  specialize (Hidem Hlt).
  unfold mount, first_render, commit_mount, bind, new_Image, exec in *.
  simpl in *. fold image. rewrite H1. unfold ret at 1. simpl. rewrite Hidem.
  unfold notify_effect. rewrite decide_True by done.
  unfold handleLoadingStatusChange. simpl.
  unfold setLoadingStatus. simpl. rewrite decide_True by done. done.
Qed.

Lemma setImage_calls image src w :
  calls (exec (setImageSrcAndGetInitialState image src) w) = calls w.
Proof.
  unfold exec. destruct (truthy src) eqn:Hs.
  - rewrite setImage_truthy by done. simpl. unfold assigned.
    destruct (negb _); [|done]. unfold exec, set_src.
    by destruct (String.eqb _ _).
  - by rewrite setImage_falsy.
Qed.

Lemma handles_ok_same w w' o :
  same_subscriptions w w' → handles_ok w o → handles_ok w' o.
Proof.
  intros [Hlen Hls Ha Hr] [Ho Hl Hb]; split.
  - intros k Hk. rewrite Hlen. auto.
  - intros k. by rewrite Hls.
  - by rewrite Ha, Hr.
Qed.

Lemma log_calls_same cs w : same_subscriptions w (log_calls cs w).
Proof. by split. Qed.

Lemma set_timers_same f w : same_subscriptions w (set_timers f w).
Proof. by split. Qed.


Lemma exec_seq {A B} (m : Eff A) (k : Eff B) w :
  exec (m;;; k) w = exec k (exec m w).
Proof. unfold exec, bind. by destruct (m w). Qed.

Lemma addEventListener_listeners image l w k :
  (image < length (images w))%nat →
  listeners (deref (exec (addEventListener image l) w) k) =
    if decide (k = image) then listeners (deref w image) ++ [l]
    else listeners (deref w k).
Proof.
  intros Hi. unfold exec, addEventListener; simpl.
  change (deref (count_addEventListener ?w) k) with (deref w k).
  rewrite deref_insert. destruct (decide (k = image)) as [->|Hne].
  - by rewrite decide_True.
  - rewrite decide_False; [done | by intros [? _]].
Qed.

Lemma removeEventListener_listeners image l w k :
  (image < length (images w))%nat →
  listeners (deref (exec (removeEventListener image l) w) k) =
    if decide (k = image)
    then filter (λ l', l' ≠ l) (listeners (deref w image))
    else listeners (deref w k).
Proof.
  intros Hi. unfold exec, removeEventListener; simpl.
  change (deref (count_removeEventListener ?w) k) with (deref w k).
  rewrite deref_insert. destruct (decide (k = image)) as [->|Hne].
  - by rewrite decide_True.
  - rewrite decide_False; [done | by intros [? _]].
Qed.

Lemma addEventListener_length image l w :
  length (images (exec (addEventListener image l) w)) = length (images w).
Proof. unfold exec, addEventListener; simpl. by rewrite length_insert. Qed.

Lemma removeEventListener_length image l w :
  length (images (exec (removeEventListener image l) w)) = length (images w).
Proof. unfold exec, removeEventListener; simpl. by rewrite length_insert. Qed.

Lemma subscribe_ok image w :
  handles_ok w None → (image < length (images w))%nat →
  handles_ok
    (exec (subscribe image) w) (Some image).
Proof.
  intros [_ Hl Hb] Hi. unfold subscribe. rewrite exec_seq. split.
  - intros k [= <-]. by rewrite !addEventListener_length.
  - intros k. rewrite !addEventListener_listeners, !Hl;
      rewrite ?addEventListener_length; try done.
    rewrite (decide_True (P := image = image)) by done. simpl.
    destruct (decide (k = image)) as [->|Hne].
    + by rewrite decide_True.
    + rewrite decide_False; naive_solver.
  - unfold exec, addEventListener; simpl. rewrite Hb. lia.
Qed.

Lemma unsubscribe_ok image w :
  handles_ok w (Some image) →
  handles_ok
    (exec (unsubscribe image) w) None.
Proof.
  intros [Ho Hl Hb]. specialize (Ho image eq_refl).
  unfold unsubscribe. rewrite exec_seq. split.
  - done.
  - intros k. rewrite !removeEventListener_listeners, !Hl;
      rewrite ?removeEventListener_length; try done.
    rewrite !(decide_True (P := image = image)) by done.
    rewrite (decide_True (P := Some image = Some image)) by done.
    destruct (decide (k = image)) as [->|Hne]; [done |].
    rewrite !decide_False; naive_solver.
  - unfold exec, removeEventListener; simpl. rewrite Hb. lia.
Qed.

Lemma log_calls_nil w : log_calls [] w = w.
Proof. destruct w; unfold log_calls; simpl. by rewrite app_nil_r. Qed.

Lemma new_Image_ok w :
  handles_ok w None → handles_ok (exec new_Image w) None.
Proof.
  intros [_ Hl Hb]. split; [done | | done].
  intros k. rewrite <- Hl. unfold deref, exec, new_Image; simpl.
  destruct (decide (k < length (images w))%nat) as [Hlt|Hge].
  - by rewrite lookup_app_l.
  - rewrite lookup_app_r by lia. rewrite (lookup_ge_None_2 (images w)) by lia.
    by destruct (k - length (images w))%nat.
Qed.

Lemma owner_dispatched image type t : owner (dispatched image type t) = owner t.
Proof. destruct t as [a|]; simpl; [by case_decide | done]. Qed.

Lemma src_dispatched image type t :
  src ∘ Image <$> dispatched image type t = src ∘ Image <$> t.
Proof. destruct t as [a|]; simpl; [by case_decide | done]. Qed.

Lemma sync_dispatched image type t :
  (∀ a, t = Some a → in_sync a) →
  ∀ a, dispatched image type t = Some a → in_sync a.
Proof.
  intros Hs a. destruct t as [a0|]; simpl; [| done].
  case_decide; intros [= <-]; [| auto]. split; [by destruct type | done].
Qed.

Lemma dispatchEvent_spec image type t w :
  handles_ok w (owner t) → (∀ a, t = Some a → in_sync a) →
  dispatchEvent image type t w =
    (dispatched image type t,
     log_calls
       (notified (loadingStatus ∘ Image <$> t)
          (loadingStatus ∘ Image <$> dispatched image type t))
       w).
Proof.
  intros [Ho Hl Hb] Hsync. unfold dispatchEvent, dispatched. rewrite Hl.
  destruct t as [a|]; simpl.
  - specialize (Hsync a eq_refl).
    destruct (decide (ImageModel.image (Image a) = image)) as [<-|Hne].
    + rewrite decide_True by done.
      destruct type; simpl.
      * rewrite decide_True by done.
        unfold bind. rewrite setLoadingStatus_spec by done. done.
      * unfold bind. rewrite decide_True by done.
        rewrite setLoadingStatus_spec by done. done.
    + rewrite decide_False by congruence. simpl.
      rewrite decide_True by done. by rewrite log_calls_nil.
  - by rewrite log_calls_nil.
Qed.


Lemma step_spec e st : Inv st → step_facts e st (step e st).
Proof.
  intros [Hh Hs]. destruct st as [w t]; simpl in *.
  destruct e as [s| | |image type]; unfold step; cbn [world tree].
  - (* Render *)
    destruct t as [a|]; simpl in *.
    + unfold rerender. destruct (decide (s = src (Image a))) as [->|Hne].
      * unfold ret. split; simpl; rewrite ?Nat.add_0_r; try done.
        unfold notified, status; simpl. rewrite decide_True by done.
        by rewrite app_nil_r.
      * unfold bind.
        pose proof (setImage_subscriptions (image (Image a)) s w) as Hsame.
        pose proof (setImage_calls (image (Image a)) s w) as Hcalls.
        pose proof (setImage_not_idle (image (Image a)) s w) as Hidle.
        unfold exec, eval in *.
        destruct (setImageSrcAndGetInitialState _ _ _) as [s1 w1]; simpl in *.
        rewrite setLoadingStatus_spec; [| done | apply (Hs a eq_refl)].
        simpl. destruct Hsame as [? ? Ha Hr].
        split; simpl; rewrite ?Nat.add_0_r; try done.
        -- split; simpl.
           ++ eapply handles_ok_same; [| exact Hh]. by split.
           ++ intros ? [= <-]. by split.
        -- by rewrite Hcalls.
    + pose proof (mount_spec s w) as Hm. simpl in Hm.
      pose proof (new_Image_ok w Hh) as Hok0.
      assert (length (images (exec new_Image w)) = S (length (images w))) as Hlen
        by (unfold exec, new_Image; simpl; rewrite length_app; simpl; lia).
      assert (calls (exec new_Image w) = calls w) as Hc0 by done.
      assert (addEventListener_calls (exec new_Image w)
              = addEventListener_calls w) as Ha0 by done.
      assert (removeEventListener_calls (exec new_Image w)
              = removeEventListener_calls w) as Hr0 by done.
      set (w0 := exec new_Image w) in *. clearbody w0.
      pose proof (setImage_subscriptions (length (images w)) s w0) as Hsame.
      pose proof (setImage_calls (length (images w)) s w0) as Hcalls.
      pose proof (setImage_not_idle (length (images w)) s w0) as Hidle.
      unfold exec in Hsame, Hcalls. unfold eval in Hidle.
      destruct (setImageSrcAndGetInitialState _ _ w0) as [s1 w1]; simpl in *.
      rewrite Hm.
      assert (handles_ok
                (exec (subscribe (length (images w))) w1)
                (Some (length (images w)))) as Hok.
      { apply subscribe_ok.
        - eapply handles_ok_same; [exact Hsame | done].
        - destruct Hsame as [-> _ _ _]. lia. }
      split; cbn [world tree].
      * split; cbn [world tree]; [| intros ? [= <-]; by split].
        eapply handles_ok_same; [apply log_calls_same | exact Hok].
      * unfold subscribe. rewrite exec_seq.
        unfold exec, addEventListener; simpl.
        by rewrite Hcalls, Hc0.
      * unfold subscribe. rewrite exec_seq.
        unfold exec, addEventListener; simpl.
        destruct Hsame as [_ _ -> _]. lia.
      * unfold subscribe. rewrite exec_seq.
        unfold exec, addEventListener; simpl.
        destruct Hsame as [_ _ _ ->]. lia.
      * done.
  - (* Unmount *)
    destruct t as [a|]; simpl in Hh.
    + split; cbn [world tree].
      * split; cbn [world tree]; [| done]. by apply unsubscribe_ok.
      * unfold unmount, unsubscribe. rewrite exec_seq.
        unfold exec, removeEventListener.
        simpl. by rewrite app_nil_r.
      * unfold unmount, unsubscribe. rewrite exec_seq.
        unfold exec, removeEventListener.
        simpl. lia.
      * unfold unmount, unsubscribe. rewrite exec_seq.
        unfold exec, removeEventListener.
        simpl. lia.
      * done.
    + split; simpl; rewrite ?Nat.add_0_r, ?app_nil_r; done.
  - (* TimerFires *)
    assert (adds TimerFires {| world := w; tree := t |} = 0%nat) as Ha
      by (unfold adds; simpl; by destruct t).
    assert (removes TimerFires {| world := w; tree := t |} = 0%nat) as Hr
      by (unfold removes; simpl; by destruct t).
    destruct (timers w) as [|image rest] eqn:Ht.
    + split; simpl; rewrite ?Ha, ?Hr, ?Nat.add_0_r; try done.
      unfold notified, status; simpl. destruct t; simpl;
        rewrite ?decide_True by done; by rewrite app_nil_r.
    + unfold timer_callback, bind.
      rewrite dispatchEvent_spec;
        [| eapply handles_ok_same; [apply set_timers_same | exact Hh] | done].
      unfold get_src.
      split; cbn [world tree]; rewrite ?Ha, ?Hr, ?Nat.add_0_r; try done.
      * split; cbn [world tree]; [| by apply sync_dispatched].
        rewrite owner_dispatched.
        eapply handles_ok_same; [| exact Hh]. by split.
      * apply src_dispatched.
  - (* Dispatch *)
    assert (adds (Dispatch image type) {| world := w; tree := t |} = 0%nat) as Ha
      by (unfold adds; simpl; by destruct t).
    assert (removes (Dispatch image type) {| world := w; tree := t |} = 0%nat) as Hr
      by (unfold removes; simpl; by destruct t).
    rewrite dispatchEvent_spec by done.
    split; cbn [world tree]; rewrite ?Ha, ?Hr, ?Nat.add_0_r; try done.
    + split; cbn [world tree]; [| by apply sync_dispatched].
      rewrite owner_dispatched.
      eapply handles_ok_same; [| exact Hh]. by split.
    + apply src_dispatched.
Qed.

Lemma Inv_init c spy : Inv (init c spy).
Proof.
  split; simpl; [| done]. split; simpl; done.
Qed.

Lemma run_step e es st : run (e :: es) st = run es (step e st).
Proof. done. Qed.

Lemma run_snoc es e st : run (es ++ [e]) st = step e (run es st).
Proof. unfold run. by rewrite foldl_app. Qed.

Lemma run_Inv es st : Inv st → Inv (run es st).
Proof.
  revert st. induction es as [|e es IH]; intros st H; [done |].
  rewrite run_step. by apply IH, step_spec.
Qed.

Lemma run_src es c spy : src_of (run es (init c spy)) = latest_src es.
Proof.
  induction es as [|e es IH] using rev_ind; [done |].
  rewrite run_snoc. unfold latest_src. rewrite foldl_app. simpl.
  fold (latest_src es). rewrite <- IH.
  rewrite (sf_src _ _ _ (step_spec e _ (run_Inv es _ (Inv_init c spy)))).
  done.
Qed.

(** C1, where the code departs from it.  An avatar is rendered with
    ["/test.png"], which is not cached, and then with no source (or with the
    empty string) while the decode is pending.  The status becomes ['error']
    at once, nothing is rendered and the [src] setter is not called again;
    but the handle still holds ["/test.png"], and when its load notification
    arrives the status becomes ['loaded'] and an image element is rendered,
    for a source that is absent (or empty). *)
Theorem C1_stale_load_after_source_removed :
  Forall
    (λ src : option string,
       let st :=
         run [Render (Some "/test.png"%string); Render src] (init ∅ None) in
       truthy src = false ∧
       status st = Some error ∧ rendered st = None ∧
       src_assignments (world st) = [(0%nat, "/test.png"%string)] ∧
       timers (world st) = [0%nat] ∧
       status (step TimerFires st) = Some loaded ∧
       rendered (step TimerFires st) = Some (img src))
    [None; Some ""%string].
Proof.
  apply Forall_cons_2; [by vm_compute |].
  apply Forall_cons_2; [by vm_compute | apply Forall_nil_2].
Qed.

(** What does hold of a source that is absent or empty: the render that
    brings it (a mount, or a change of the prop) yields ['error'] and no
    image element, and the [src] setter of the handle is not called. *)
Lemma Render_without_source src st :
  truthy src = false → Inv st → src_of st ≠ Some src →
  let st' := step (Render src) st in
  status st' = Some error ∧ rendered st' = None ∧
  src_assignments (world st') = src_assignments (world st).
Proof.
  intros Hsrc [Hh Hs] Hne. destruct st as [w [t|]]; unfold step; simpl in *.
  - unfold rerender. rewrite decide_False by (intros ->; by apply Hne).
    unfold bind. rewrite setImage_falsy by done.
    rewrite setLoadingStatus_spec; [done | done | apply (Hs t eq_refl)].
  - pose proof (mount_spec src w) as Hm. simpl in Hm.
    rewrite setImage_falsy in Hm by done. by rewrite Hm.
Qed.

(** C3.  Whatever has happened to an avatar, the callbacks an event invokes
    are those of [notified]: none when the status of the mounted image is
    the one it was, and otherwise [onLoadingStatusChange] with the new status
    followed by the setter of the Root with the new status.  This covers the
    mount, where there was no status before.  The status of a mounted image
    is never ['idle'], and after the event the Root holds it. *)
Theorem C3_notifications c spy es e :
  let st := run es (init c spy) in
  let st' := step e st in
  calls (world st') = calls (world st) ++ notified (status st) (status st') ∧
  match tree st' with
  | Some t => loadingStatus (Image t) ≠ idle ∧
              imageLoadingStatus t = loadingStatus (Image t)
  | None => True
  end.
Proof.
  intros st st'.
  destruct (step_spec e st (run_Inv es _ (Inv_init c spy))) as [[_ Hs] Hc _ _ _].
  fold st' in Hs, Hc. split; [done |].
  destruct (tree st') as [t|]; [| done]. by apply Hs.
Qed.

(** C4.  Whatever has happened to an avatar, [addEventListener] has been
    called as often as [removeEventListener], plus twice while an image is
    mounted; the handle of the mounted image carries exactly its load and
    error listeners and no other handle carries any; and only a mount
    subscribes (twice) and only a teardown unsubscribes (twice), so a change
    of the source does neither. *)
Theorem C4_subscriptions_balanced c spy es :
  let st := run es (init c spy) in
  let w := world st in
  addEventListener_calls w =
    (removeEventListener_calls w +
     match tree st with Some _ => 2 | None => 0 end)%nat ∧
  (∀ k, listeners (deref w k) =
        if decide (owner (tree st) = Some k)
        then [handleLoad; handleError] else []) ∧
  (∀ e, addEventListener_calls (world (step e st)) =
          (addEventListener_calls w + adds e st)%nat ∧
        removeEventListener_calls (world (step e st)) =
          (removeEventListener_calls w + removes e st)%nat).
Proof.
  intros st w. pose proof (run_Inv es _ (Inv_init c spy)) as HI. fold st in HI.
  pose proof HI as [[_ Hl Hb] Hs]. fold w in Hl, Hb.
  split; [| split; [done |]].
  - rewrite Hb. by destruct (tree st).
  - intros e. by destruct (step_spec e st HI) as [_ _ Ha Hr _].
Qed.

(** C8.  Whatever has happened to an avatar, a mounted image renders the
    image element exactly when the status shared by the Root is ['loaded'],
    and then with the [src] of the latest render; without a mounted image
    nothing is rendered. *)
Theorem C8_image_element c spy es :
  let st := run es (init c spy) in
  match tree st with
  | Some t =>
      rendered st =
        (if decide (imageLoadingStatus t = loaded)
         then Some (img (src (Image t))) else None) ∧
      latest_src es = Some (src (Image t))
  | None => rendered st = None
  end.
Proof.
  intros st. pose proof (run_Inv es _ (Inv_init c spy)) as [_ Hs].
  pose proof (run_src es c spy) as Hsrc. fold st in Hs, Hsrc.
  unfold rendered, src_of in *. destruct (tree st) as [t|]; [| done].
  destruct (Hs t eq_refl) as [_ ->]. simpl in *. split; [done |]. by rewrite <- Hsrc.
Qed.

Lemma assigned_env image src w :
  cache (assigned image src w) = cache w ∧
  naturalWidth_spy (assigned image src w) = naturalWidth_spy w ∧
  calls (assigned image src w) = calls w.
Proof.
  unfold assigned. destruct (negb _); [| done].
  unfold exec, set_src. by destruct (String.eqb _ _).
Qed.

Lemma ready_cached image w :
  _src (deref w image) ∈ cache w →
  (∀ v, naturalWidth_spy w = Some v → 0 < v) →
  ready image w = true.
Proof.
  intros Hc Hspy. unfold ready, eval, complete, naturalWidth; simpl.
  rewrite (bool_decide_eq_true_2 _ Hc), orb_true_r. simpl.
  destruct (naturalWidth_spy w) as [v|] eqn:Hv; simpl.
  - apply Z.ltb_lt. by apply Hspy.
  - unfold eval, complete; simpl.
    by rewrite (bool_decide_eq_true_2 _ Hc), orb_true_r.
Qed.

(** C2.  For a non-empty source the loader returns ['loaded'] when the
    handle, after the assignment, is complete with a positive natural width,
    and ['loading'] otherwise.  So does the first render of a new instance,
    whose handle then holds the source; when the handle is ready that first
    render already yields the image element, and the commit of the mount
    invokes the callbacks with ['loaded'] only.  The handle is ready when the
    source is in the cache and no spy reports a width that is not positive. *)
Theorem C2_initial_status (src : option string) (w : World) :
  truthy src = true →
  (∀ image,
     setImageSrcAndGetInitialState image src w =
       (if ready image (assigned image src w) then loaded else loading,
        assigned image src w)) ∧
  let '(i, w1) := first_render src w in
  _src (deref w1 (image i)) = str src ∧
  loadingStatus i = (if ready (image i) w1 then loaded else loading) ∧
  (ready (image i) w1 = true →
     AvatarImage_render i = Some (img src) ∧
     let '(t, w2) := commit_mount i w1 in
     Image t = i ∧ imageLoadingStatus t = loaded ∧
     calls w2 =
       calls w ++ [onLoadingStatusChange loaded;
                   onImageLoadingStatusChange loaded]) ∧
  (str src ∈ cache w → (∀ v, naturalWidth_spy w = Some v → 0 < v) →
   ready (image i) w1 = true).
Proof.
  intros Hsrc. split; [intros image; by apply setImage_truthy |].
  pose proof (mount_spec src w) as Hm. cbv zeta in Hm.
  unfold mount, first_render, bind in Hm |- *.
  assert (length (images w) < length (images (exec new_Image w)))%nat as Hlt
    by (unfold exec, new_Image; simpl; rewrite length_app; simpl; lia).
  assert (cache (exec new_Image w) = cache w ∧
          naturalWidth_spy (exec new_Image w) = naturalWidth_spy w ∧
          calls (exec new_Image w) = calls w) as (Hc0 & Hs0 & Hl0) by done.
  change (new_Image w) with (length (images w), exec new_Image w) in Hm |- *.
  cbv beta iota in Hm |- *.
  set (image := length (images w)) in *.
  set (w0 := exec new_Image w) in *. clearbody w0.
  rewrite setImage_truthy in Hm by done. rewrite setImage_truthy by done.
  unfold ret in Hm |- *.
  destruct (assigned_env image src w0) as (Hc1 & Hs1 & Hl1).
  pose proof (assigned_src image src w0 Hsrc Hlt) as Hsrc1.
  set (w1 := assigned image src w0) in *. clearbody w1.
  cbv beta iota in Hm |- *. cbn [ImageModel.image loadingStatus].
  split; [done |]. split; [done |]. split.
  - intros Hr. rewrite Hr in *. split; [done |].
    rewrite Hm. split; [done |]. split; [done |].
    unfold exec, bind, addEventListener; simpl. congruence.
  - intros Hin Hspy. apply ready_cached.
    + rewrite Hsrc1, Hc1, Hc0. done.
    + intros v. rewrite Hs1, Hs0. apply Hspy.
Qed.

(** C2 at a cached source. *)
Lemma C2_initial_status_witness :
  let src := Some "/test.png"%string in
  let w := world0 {["/test.png"%string]} None in
  truthy src = true ∧
  (∀ image,
     setImageSrcAndGetInitialState image src w =
       (if ready image (assigned image src w) then loaded else loading,
        assigned image src w)) ∧
  let '(i, w1) := first_render src w in
  _src (deref w1 (image i)) = str src ∧
  loadingStatus i = (if ready (image i) w1 then loaded else loading) ∧
  (ready (image i) w1 = true →
     AvatarImage_render i = Some (img src) ∧
     let '(t, w2) := commit_mount i w1 in
     Image t = i ∧ imageLoadingStatus t = loaded ∧
     calls w2 =
       calls w ++ [onLoadingStatusChange loaded;
                   onImageLoadingStatusChange loaded]) ∧
  (str src ∈ cache w → (∀ v, naturalWidth_spy w = Some v → 0 < v) →
   ready (image i) w1 = true).
Proof.
  intros src w.
  assert (truthy src = true) as H by reflexivity.
  split; [exact H | exact (C2_initial_status src w H)].
Defined.



(** ** Further properties of the loader *)

Lemma truthy_str src : truthy src = true → String.eqb (str src) "" = false.
Proof.
  destruct src as [s|]; simpl; [| done]. by destruct (String.eqb s "").
Qed.

Lemma setImage_effects image src w :
  let w' := exec (setImageSrcAndGetInitialState image src) w in
  src_assignments w' =
    src_assignments w ++ (if assigns image src w then [(image, str src)] else []) ∧
  timers w' = timers w ++ (if assigns image src w then [image] else []) ∧
  cache w' = cache w ∧ naturalWidth_spy w' = naturalWidth_spy w ∧
  calls w' = calls w ∧
  addEventListener_calls w' = addEventListener_calls w ∧
  removeEventListener_calls w' = removeEventListener_calls w ∧
  length (images w') = length (images w) ∧
  (∀ k, listeners (deref w' k) = listeners (deref w k)) ∧
  (∀ k, k ≠ image → deref w' k = deref w k).
Proof.
  intros w'.
  unfold w', exec, assigns. destruct (truthy src) eqn:Hs; simpl.
  - rewrite setImage_truthy by done. simpl. unfold assigned.
    destruct (negb _) eqn:E; simpl.
    + unfold exec, set_src. rewrite truthy_str by done. simpl.
      repeat split; try done.
      * by rewrite length_insert.
      * intros k. rewrite deref_set_timers, deref_insert.
        case_decide as Hk; [by destruct Hk as [-> _] | done].
      * intros k Hk. rewrite deref_set_timers, deref_insert.
        rewrite decide_False; [done | by intros [? _]].
    + by rewrite !app_nil_r.
  - rewrite setImage_falsy by done. simpl. by rewrite !app_nil_r.
Qed.

(** X1.  What [setImageSrcAndGetInitialState] does to the world, whatever
    the handle, the source and the world are: it never returns ['idle']; it
    calls the [src] setter once, with the source, exactly when the source is
    truthy and differs from what the handle holds, and only then is a load
    scheduled; it leaves the cache, the callbacks, the subscriptions and every
    other handle alone. *)
Theorem X1_setImage_footprint image src w :
  let w' := exec (setImageSrcAndGetInitialState image src) w in
  eval (setImageSrcAndGetInitialState image src) w ≠ idle ∧
  src_assignments w' =
    src_assignments w ++ (if assigns image src w then [(image, str src)] else []) ∧
  timers w' = timers w ++ (if assigns image src w then [image] else []) ∧
  cache w' = cache w ∧ calls w' = calls w ∧
  addEventListener_calls w' = addEventListener_calls w ∧
  removeEventListener_calls w' = removeEventListener_calls w ∧
  (∀ k, listeners (deref w' k) = listeners (deref w k)) ∧
  (∀ k, k ≠ image → deref w' k = deref w k).
Proof.
  intros w'. split; [apply setImage_not_idle |].
  destruct (setImage_effects image src w)
    as (? & ? & ? & ? & ? & ? & ? & ? & ? & ?).
  by repeat split.
Qed.

Lemma deref_set_src image s w k :
  deref (exec (set_src image s) w) k =
    if decide (k = image ∧ (image < length (images w))%nat ∧ s ≠ ""%string)
    then {| _src := s; listeners := listeners (deref w image) |}
    else deref w k.
Proof.
  unfold exec, set_src. destruct (String.eqb s "") eqn:E; simpl.
  - apply String.eqb_eq in E. rewrite decide_False; [by destruct w | tauto].
  - apply String.eqb_neq in E. rewrite deref_set_timers, deref_insert.
    change (deref (log_src_assignment (image, s) w)) with (deref w).
    change (images (log_src_assignment (image, s) w)) with (images w).
    destruct (decide (k = image ∧ (image < length (images w))%nat)) as [H|H].
    + rewrite decide_True; [done | tauto].
    + rewrite decide_False; [done | tauto].
Qed.

(** X2.  The [src] accessors of the handle: after an assignment the getter
    returns the assigned value, except that assigning the empty string is
    ignored (the value stays, no load is scheduled); a real assignment
    schedules one load; listeners and other handles are untouched; without a
    spy the natural width is positive exactly when the handle is complete,
    which it is when it has no source or its source is cached. *)
Theorem X2_MockImage_src_round_trip image s w :
  (image < length (images w))%nat →
  let w' := exec (set_src image s) w in
  eval (get_src image) w' =
    (if String.eqb s "" then eval (get_src image) w else s) ∧
  timers w' = timers w ++ (if String.eqb s "" then [] else [image]) ∧
  listeners (deref w' image) = listeners (deref w image) ∧
  (∀ k, k ≠ image → deref w' k = deref w k) ∧
  (naturalWidth_spy w = None →
   (0 <? eval (naturalWidth image) w') = eval (complete image) w') ∧
  eval (complete image) w' =
    bool_decide (eval (get_src image) w' = ""%string ∨
                 eval (get_src image) w' ∈ cache w).
Proof.
  intros Hi w'. unfold w', eval, get_src. simpl.
  rewrite deref_set_src.
  destruct (String.eqb s "") eqn:E.
  - apply String.eqb_eq in E. rewrite decide_False by tauto.
    split; [done |].
    split; [unfold exec, set_src;
            by rewrite (proj2 (String.eqb_eq s "") E), app_nil_r |].
    split; [done |]. split.
    { intros k Hk. rewrite deref_set_src. rewrite decide_False; [done | tauto]. }
    unfold complete, naturalWidth, eval. simpl.
    rewrite !deref_set_src, !decide_False by tauto.
    assert (cache (exec (set_src image s) w) = cache w) as ->
      by (unfold exec, set_src; by destruct (String.eqb s "")).
    assert (naturalWidth_spy (exec (set_src image s) w) = naturalWidth_spy w) as ->
      by (unfold exec, set_src; by destruct (String.eqb s "")).
    split.
    + intros ->. by destruct (_ || _).
    + destruct (String.eqb (_src (deref w image)) "") eqn:E2; simpl.
      * apply String.eqb_eq in E2. by rewrite bool_decide_eq_true_2 by by left.
      * apply String.eqb_neq in E2. apply bool_decide_ext. tauto.
  - apply String.eqb_neq in E. rewrite decide_True by tauto. simpl.
    split; [done |].
    split; [unfold exec, set_src; by rewrite (proj2 (String.eqb_neq s "") E) |].
    split; [done |]. split.
    { intros k Hk. rewrite deref_set_src. rewrite decide_False; [done | tauto]. }
    unfold complete, naturalWidth, eval. simpl.
    rewrite !deref_set_src, !decide_True by tauto. simpl.
    assert (cache (exec (set_src image s) w) = cache w) as ->
      by (unfold exec, set_src; by destruct (String.eqb s "")).
    assert (naturalWidth_spy (exec (set_src image s) w) = naturalWidth_spy w) as ->
      by (unfold exec, set_src; by destruct (String.eqb s "")).
    rewrite (proj2 (String.eqb_neq s "") E). simpl. split.
    + intros ->. by destruct (bool_decide _).
    + apply bool_decide_ext. tauto.
Qed.

Lemma addEventListener_src image l w k :
  _src (deref (exec (addEventListener image l) w) k) = _src (deref w k).
Proof.
  unfold exec, addEventListener; simpl.
  change (deref (count_addEventListener ?w) k) with (deref w k).
  rewrite deref_insert. case_decide as H; [by destruct H as [-> _] | done].
Qed.

Lemma removeEventListener_src image l w k :
  _src (deref (exec (removeEventListener image l) w) k) = _src (deref w k).
Proof.
  unfold exec, removeEventListener; simpl.
  change (deref (count_removeEventListener ?w) k) with (deref w k).
  rewrite deref_insert. case_decide as H; [by destruct H as [-> _] | done].
Qed.

Lemma same_sources_refl w : same_sources w w.
Proof. by split. Qed.

Lemma same_sources_trans w1 w2 w3 :
  same_sources w1 w2 → same_sources w2 w3 → same_sources w1 w3.
Proof.
  intros [] []. split; intros; congruence.
Qed.

Lemma subscribe_sources image w : same_sources w (exec (subscribe image) w).
Proof.
  unfold subscribe. rewrite exec_seq. split;
    try (unfold exec, addEventListener; simpl; done).
  - by rewrite !addEventListener_length.
  - intros k. by rewrite !addEventListener_src.
Qed.

Lemma unsubscribe_sources image w : same_sources w (exec (unsubscribe image) w).
Proof.
  unfold unsubscribe. rewrite exec_seq. split;
    try (unfold exec, removeEventListener; simpl; done).
  - by rewrite !removeEventListener_length.
  - intros k. by rewrite !removeEventListener_src.
Qed.

Lemma log_calls_sources cs w : same_sources w (log_calls cs w).
Proof. by split. Qed.

Lemma setLoadingStatus_sources s t w :
  same_sources w (exec (setLoadingStatus s t) w).
Proof.
  unfold exec, setLoadingStatus. destruct (decide _); [apply same_sources_refl |].
  unfold bind, notify_effect. destruct (decide _); by split.
Qed.

Lemma call_listeners_sources ls type o : ∀ t w,
  same_sources w (exec (call_listeners ls type o t) w).
Proof.
  induction ls as [|l ls IH]; intros t w; simpl; [apply same_sources_refl |].
  destruct (decide (on l = type)); [| apply IH].
  destruct t as [a|]; [| apply IH].
  destruct (decide (image (Image a) = o)); [| apply IH].
  unfold exec, bind.
  pose proof (setLoadingStatus_sources (updateStatus l) a w) as H1.
  unfold exec in H1. destruct (setLoadingStatus _ _ _) as [a' w1]. simpl in H1.
  eapply same_sources_trans; [exact H1 | apply IH].
Qed.

Lemma dispatchEvent_sources image type t w :
  same_sources w (exec (dispatchEvent image type t) w).
Proof. apply call_listeners_sources. Qed.

Lemma setImage_src image src w k :
  _src (deref (exec (setImageSrcAndGetInitialState image src) w) k) =
    if decide (k = image ∧ (image < length (images w))%nat ∧ truthy src = true)
    then str src else _src (deref w k).
Proof.
  unfold exec. destruct (truthy src) eqn:Hs.
  - rewrite setImage_truthy by done. simpl. unfold assigned.
    destruct (String.eqb _ _) eqn:E; simpl.
    + apply String.eqb_eq in E. case_decide as H; [| done].
      by destruct H as (-> & _ & _).
    + rewrite deref_set_src.
      pose proof (truthy_str src Hs) as Hne. apply String.eqb_neq in Hne.
      destruct (decide (k = image ∧ (image < length (images w))%nat)) as [H|H].
      * rewrite !decide_True by tauto. done.
      * rewrite !decide_False by tauto. done.
  - rewrite setImage_falsy by done. simpl. rewrite decide_False; [done |].
    intros (_ & _ & ?). done.
Qed.

Lemma step_sources e st : same_sources (after_event e st) (world (step e st)).
Proof.
  destruct st as [w t]. destruct e as [s| | |image type];
    unfold step, after_event; cbn [world tree].
  - destruct t as [a|].
    + unfold rerender. destruct (decide (s = src (Image a))); [by split |].
      unfold bind, exec.
      destruct (setImageSrcAndGetInitialState _ _ _) as [s1 w1]. simpl.
      match goal with |- context [setLoadingStatus ?s ?t ?w] =>
        pose proof (setLoadingStatus_sources s t w) as H; unfold exec in H;
        by destruct (setLoadingStatus s t w) end.
    + pose proof (mount_spec s w) as Hm. cbv zeta in Hm. unfold exec at 1.
      destruct (setImageSrcAndGetInitialState _ _ (exec new_Image w))
        as [s1 w1]. rewrite Hm. simpl.
      eapply same_sources_trans; [apply subscribe_sources |].
      apply log_calls_sources.
  - destruct t as [a|]; [| by split]. apply unsubscribe_sources.
  - destruct (timers w) as [|image rest]; [by split |].
    unfold timer_callback, bind, get_src.
    pose proof (dispatchEvent_sources image load t (set_timers (λ _, rest) w))
      as [Hc Hspy Ha Ht Hl Hs].
    unfold exec in *. destruct (dispatchEvent _ _ _ _) as [t' w1]. simpl in *.
    split; simpl; try done.
    + by rewrite Hc, Hs.
  - pose proof (dispatchEvent_sources image type t w) as H. unfold exec in H.
    by destruct (dispatchEvent _ _ _ _).
Qed.

Lemma setLoadingStatus_keeps s t w :
  let t' := eval (setLoadingStatus s t) w in
  image (Image t') = image (Image t) ∧ src (Image t') = src (Image t).
Proof.
  unfold eval, setLoadingStatus. destruct (decide _); [done |].
  unfold bind. by destruct (notify_effect _ _ _).
Qed.

Lemma call_listeners_keeps ls type o : ∀ t w,
  let t' := eval (call_listeners ls type o t) w in
  owner t' = owner t ∧ src ∘ Image <$> t' = src ∘ Image <$> t.
Proof.
  induction ls as [|l ls IH]; intros t w; simpl; [done |].
  destruct (decide (on l = type)); [| apply IH].
  destruct t as [a|]; [| apply IH].
  destruct (decide (image (Image a) = o)); [| apply IH].
  unfold eval, bind.
  pose proof (setLoadingStatus_keeps (updateStatus l) a w) as [H1 H2].
  unfold eval in H1, H2. destruct (setLoadingStatus _ _ _) as [a' w1].
  simpl in H1, H2. destruct (IH (Some a') w1) as [H3 H4].
  unfold eval in H3, H4. split.
  - rewrite H3. simpl. by rewrite H1.
  - rewrite H4. simpl. by rewrite H2.
Qed.

(** The handle and the source of the mounted image after an event. *)
Lemma step_tree e st :
  owner (tree (step e st)) =
    match e, tree st with
    | Render _, None => Some (length (images (world st)))
    | Unmount, _ => None
    | _, t => owner t
    end ∧
  src_of (step e st) =
    match e with
    | Render s => Some s
    | Unmount => None
    | _ => src_of st
    end.
Proof.
  destruct st as [w t]. destruct e as [s| | |image type];
    unfold step, src_of; cbn [world tree].
  - destruct t as [a|].
    + unfold rerender. destruct (decide (s = src (Image a))) as [->|]; [done |].
      unfold bind. destruct (setImageSrcAndGetInitialState _ _ _) as [s1 w1].
      match goal with |- context [setLoadingStatus ?s ?t ?w] =>
        pose proof (setLoadingStatus_keeps s t w) as [H1 H2]; unfold eval in *;
        destruct (setLoadingStatus s t w) end.
      simpl in *. by rewrite H1, H2.
    + pose proof (mount_spec s w) as Hm. cbv zeta in Hm.
      destruct (setImageSrcAndGetInitialState _ _ (exec new_Image w))
        as [s1 w1]. by rewrite Hm.
  - by destruct t.
  - destruct (timers w) as [|image rest]; [by destruct t |].
    unfold timer_callback, bind, get_src.
    pose proof (call_listeners_keeps
                  (listeners (deref (set_timers (λ _, rest) w) image)) load
                  image t (set_timers (λ _, rest) w)) as [H1 H2].
    unfold dispatchEvent, eval in *. destruct (call_listeners _ _ _ _ _).
    simpl in *. rewrite H1, H2. by destruct t.
  - pose proof (call_listeners_keeps (listeners (deref w image)) type image t w)
      as [H1 H2].
    unfold dispatchEvent, eval in *. destruct (call_listeners _ _ _ _ _).
    simpl in *. rewrite H1, H2. by destruct t.
Qed.

Lemma after_event_assignments e st :
  ∃ l, src_assignments (after_event e st) = src_assignments (world st) ++ l ∧
       Forall (λ a, a.2 ≠ ""%string ∧ e = Render (Some a.2)) l.
Proof.
  assert (∀ image src w,
            ∃ l, src_assignments
                   (exec (setImageSrcAndGetInitialState image src) w)
                 = src_assignments w ++ l ∧
                 Forall (λ a, a.2 ≠ ""%string ∧ Render src = Render (Some a.2)) l)
    as Hset.
  { intros image src w.
    destruct (setImage_effects image src w) as (-> & _).
    unfold assigns. destruct (truthy src) eqn:Hs; simpl; [| by exists []].
    destruct (negb _); [| by exists []].
    eexists. split; [done |]. apply Forall_singleton. simpl.
    destruct src as [s|]; [| done]. simpl in *. split; [| done].
    intros ->. done. }
  assert (∃ l, src_assignments (world st) = src_assignments (world st) ++ l ∧
               Forall (λ a, a.2 ≠ ""%string ∧ e = Render (Some a.2)) l) as Hnil
    by (exists []; by rewrite app_nil_r).
  destruct e as [s| | |image type]; unfold after_event.
  - destruct (tree st) as [a|].
    + destruct (decide _); [exact Hnil | apply Hset].
    + apply (Hset _ s (exec new_Image (world st))).
  - destruct (tree st); exact Hnil.
  - destruct (tree st); destruct (timers (world st)); exact Hnil.
  - destruct (tree st); exact Hnil.
Qed.

(** X3.  Whatever happens to an avatar, every value its handles were ever
    assigned is a non-empty source that some render passed as [src]. *)
Theorem X3_only_rendered_sources_assigned c spy es :
  Forall (λ a, a.2 ≠ ""%string ∧ Render (Some a.2) ∈ es)
    (src_assignments (world (run es (init c spy)))).
Proof.
  induction es as [|e es IH] using rev_ind; [by apply Forall_nil_2 |].
  rewrite run_snoc.
  rewrite (sm_assignments _ _ (step_sources e (run es (init c spy)))).
  destruct (after_event_assignments e (run es (init c spy))) as (l & -> & Hl).
  apply Forall_app. split.
  - eapply Forall_impl; [exact IH |]. intros a [? ?]. split; [done |].
    apply elem_of_app. by left.
  - eapply Forall_impl; [exact Hl |]. intros a [? ?]. split; [done |].
    apply elem_of_app. right. apply list_elem_of_singleton. done.
Qed.

Lemma setImage_value image src w :
  (image < length (images w))%nat →
  eval (setImageSrcAndGetInitialState image src) w = status_of_source src w.
Proof.
  intros Hi. unfold eval, status_of_source. destruct (truthy src) eqn:Hs.
  - rewrite setImage_truthy by done. simpl.
    pose proof (assigned_src image src w Hs Hi) as Hsrc.
    destruct (assigned_env image src w) as (Hc & Hspy & _).
    unfold ready, eval, complete, naturalWidth, width_ok. simpl.
    rewrite Hsrc, Hc, Hspy, (truthy_str src Hs). simpl.
    destruct (naturalWidth_spy w) as [v|]; simpl; [done |].
    unfold eval, complete. simpl. rewrite Hsrc, Hc, (truthy_str src Hs). simpl.
    by destruct (bool_decide _).
  - by rewrite setImage_falsy.
Qed.

Lemma new_Image_env w :
  cache (exec new_Image w) = cache w ∧
  naturalWidth_spy (exec new_Image w) = naturalWidth_spy w.
Proof. done. Qed.

(** The status after a render that mounts the image or changes its source. *)
Lemma Render_status src' st :
  Inv st → src_of st ≠ Some src' →
  let st' := step (Render src') st in
  status st' = Some (status_of_source src' (world st)) ∧
  rendered st' =
    (if decide (status_of_source src' (world st) = loaded)
     then Some (img src') else None).
Proof.
  intros [Hh Hs] Hne. destruct st as [w [t|]]; unfold step; simpl in *.
  - unfold rerender. rewrite decide_False by (intros ->; by apply Hne).
    unfold bind.
    pose proof (setImage_value (image (Image t)) src' w
                  (ok_owner _ _ Hh _ eq_refl)) as Hv.
    pose proof (setImage_not_idle (image (Image t)) src' w) as Hidle.
    unfold eval in Hv, Hidle.
    destruct (setImageSrcAndGetInitialState _ _ _) as [s1 w1]. simpl in *.
    subst s1.
    rewrite setLoadingStatus_spec; [| done | apply (Hs t eq_refl)].
    unfold status, rendered, AvatarImage_render. simpl. done.
  - pose proof (mount_spec src' w) as Hm. cbv zeta in Hm.
    assert (length (images w) < length (images (exec new_Image w)))%nat as Hlt
      by (unfold exec, new_Image; simpl; rewrite length_app; simpl; lia).
    pose proof (setImage_value (length (images w)) src' (exec new_Image w) Hlt)
      as Hv. unfold eval in Hv.
    destruct (setImageSrcAndGetInitialState _ _ (exec new_Image w)) as [s1 w1].
    simpl in Hv. subst s1. rewrite Hm.
    unfold status, rendered, AvatarImage_render. simpl. done.
Qed.

(** X7.  Whatever has happened to an avatar, a render that mounts the image
    or changes its source sets the status from the new source alone: ['error']
    for an absent or empty source, ['loaded'] for a cached one (with a
    positive width), ['loading'] otherwise; the image element is rendered
    exactly in the second case.  The status before the render plays no part. *)
Theorem X7_status_recomputed_from_source c spy es src' :
  let st := run es (init c spy) in
  src_of st ≠ Some src' →
  let st' := step (Render src') st in
  status st' = Some (status_of_source src' (world st)) ∧
  rendered st' =
    (if decide (status_of_source src' (world st) = loaded)
     then Some (img src') else None).
Proof.
  intros st Hne. apply Render_status; [| done]. apply run_Inv, Inv_init.
Qed.

Lemma X7_status_recomputed_from_source_witness :
  let es := [Render (Some "/a.png"%string); TimerFires] in
  let src' := Some "/b.png"%string in
  let st := run es (init ∅ None) in
  let st' := step (Render src') st in
  src_of st ≠ Some src' ∧
  status st' = Some (status_of_source src' (world st)) ∧
  rendered st' =
    (if decide (status_of_source src' (world st) = loaded)
     then Some (img src') else None).
Proof.
  intros es src' st st'.
  assert (src_of st ≠ Some src') as H by (vm_compute; discriminate).
  split; [exact H |].
  exact (X7_status_recomputed_from_source ∅ None es src' H).
Defined.

Lemma step_holds e st : Inv st → holds_source st → holds_source (step e st).
Proof.
  intros HI Hh k s Hk Hs Ht.
  destruct (step_tree e st) as [Ho Hsrc]. rewrite Ho in Hk. rewrite Hsrc in Hs.
  rewrite (sm_src _ _ (step_sources e st)).
  destruct HI as [[Hown _ _] _].
  destruct e as [s'| | |image type]; unfold after_event.
  - injection Hs as ->. destruct (tree st) as [a|] eqn:Ha.
    + simpl in Hk. injection Hk as <-.
      destruct (decide (s = src (Image a))) as [->|Hne].
      * apply Hh; [by rewrite Ha | unfold src_of; by rewrite Ha | done].
      * rewrite setImage_src. rewrite decide_True; [done |].
        split; [done |]. split; [| done]. by apply Hown.
    + injection Hk as <-. rewrite setImage_src. rewrite decide_True; [done |].
      split; [done |]. split; [| done].
      unfold exec, new_Image; simpl. rewrite length_app; simpl; lia.
  - by destruct (tree st).
  - assert (_src (deref (world st) k) = str s) as Hgoal.
    { destruct (tree st) eqn:Ha; [| done]. apply Hh; try done. by rewrite Ha. }
    destruct (tree st); destruct (timers (world st)); exact Hgoal.
  - assert (_src (deref (world st) k) = str s) as Hgoal.
    { destruct (tree st) eqn:Ha; [| done]. apply Hh; try done. by rewrite Ha. }
    destruct (tree st); exact Hgoal.
Qed.

Lemma run_holds es c spy : holds_source (run es (init c spy)).
Proof.
  induction es as [|e es IH] using rev_ind; [by intros k s [=] |].
  rewrite run_snoc. apply step_holds; [apply run_Inv, Inv_init | done].
Qed.



Lemma after_event_env e st :
  cache (world st) ⊆ cache (after_event e st) ∧
  naturalWidth_spy (after_event e st) = naturalWidth_spy (world st).
Proof.
  destruct e as [s| | |image type]; unfold after_event.
  - destruct (tree st) as [a|].
    + destruct (decide _); [done |].
      by destruct (setImage_effects (image (Image a)) s (world st))
        as (_ & _ & -> & -> & _).
    + by destruct (setImage_effects (length (images (world st))) s
                     (exec new_Image (world st))) as (_ & _ & -> & -> & _).
  - by destruct (tree st).
  - destruct (tree st); destruct (timers (world st)); try done;
      simpl; split; try done; set_solver.
  - by destruct (tree st).
Qed.

Lemma step_env e st :
  cache (world st) ⊆ cache (world (step e st)) ∧
  naturalWidth_spy (world (step e st)) = naturalWidth_spy (world st).
Proof.
  destruct (step_sources e st) as [-> -> _ _ _ _]. apply after_event_env.
Qed.

Lemma run_env es st :
  cache (world st) ⊆ cache (world (run es st)) ∧
  naturalWidth_spy (world (run es st)) = naturalWidth_spy (world st).
Proof.
  revert st. induction es as [|e es IH]; intros st; [done |].
  rewrite run_step. destruct (IH (step e st)) as [H1 H2].
  destruct (step_env e st) as [H3 H4]. split; [by etrans | congruence].
Qed.

Lemma run_events_app es1 es2 st : run (es1 ++ es2) st = run es2 (run es1 st).
Proof. unfold run. by rewrite foldl_app. Qed.

(** X5.  The cache only grows: a source that is cached at some point is
    still cached after any further events, and a mount with it then starts as
    ['loaded'] with the image element rendered, unless a spy reports a width
    that is not positive. *)
Theorem X5_cached_source_loads_at_once c spy es es' src :
  let st := run es (init c spy) in
  let st' := run es' st in
  truthy src = true → str src ∈ cache (world st) →
  (∀ v, spy = Some v → 0 < v) → tree st' = None →
  str src ∈ cache (world st') ∧
  status (step (Render src) st') = Some loaded ∧
  rendered (step (Render src) st') = Some (img src).
Proof.
  intros st st' Hs Hc Hspy Ht.
  destruct (run_env es' st) as [Hsub Hspy'].
  destruct (run_env es (init c spy)) as [_ Hspy0]. simpl in Hspy0.
  fold st in Hspy0. fold st' in Hsub, Hspy'.
  assert (str src ∈ cache (world st')) as Hc' by by apply Hsub.
  split; [done |].
  destruct (Render_status src st') as [H1 H2].
  - unfold st', st. rewrite <- run_events_app. apply run_Inv, Inv_init.
  - unfold src_of. by rewrite Ht.
  - assert (status_of_source src (world st') = loaded) as Hl.
    { unfold status_of_source, width_ok. rewrite Hs, Hspy', Hspy0.
      rewrite bool_decide_eq_true_2 by done. simpl.
      destruct spy as [v|]; [| done].
      by rewrite (proj2 (Z.ltb_lt 0 v) (Hspy v eq_refl)). }
    rewrite H1, H2, Hl. by rewrite decide_True.
Qed.

Lemma X5_cached_source_loads_at_once_witness :
  let es := [Render (Some "/test.png"%string); TimerFires] in
  let es' := [Unmount] in
  let src := Some "/test.png"%string in
  let st := run es (init ∅ None) in
  let st' := run es' st in
  truthy src = true ∧ str src ∈ cache (world st) ∧
  (∀ v, @None Z = Some v → 0 < v) ∧ tree st' = None ∧
  str src ∈ cache (world st') ∧
  status (step (Render src) st') = Some loaded ∧
  rendered (step (Render src) st') = Some (img src).
Proof.
  intros es es' src st st'.
  assert (truthy src = true) as H1 by reflexivity.
  assert (str src ∈ cache (world st)) as H2 by (vm_compute; set_solver).
  assert (∀ v, @None Z = Some v → 0 < v) as H3 by (intros v Hv; discriminate).
  assert (tree st' = None) as H4 by reflexivity.
  split; [exact H1 |]. split; [exact H2 |]. split; [exact H3 |].
  split; [exact H4 |].
  exact (X5_cached_source_loads_at_once ∅ None es es' src H1 H2 H3 H4).
Defined.

(** X6.  Once the avatar is torn down, nothing that happens before the next
    render reaches it: pending timers of its handle and notifications on any
    handle invoke no callback, render nothing, subscribe and unsubscribe
    nothing and assign no source. *)
Theorem X6_quiet_after_teardown c spy es es' :
  let st := run es (init c spy) in
  let st' := run es' st in
  tree st = None → Forall not_Render es' →
  tree st' = None ∧ rendered st' = None ∧
  calls (world st') = calls (world st) ∧
  addEventListener_calls (world st') = addEventListener_calls (world st) ∧
  removeEventListener_calls (world st') = removeEventListener_calls (world st) ∧
  src_assignments (world st') = src_assignments (world st).
Proof.
  intros st st' Ht Hes. pose proof (run_Inv es _ (Inv_init c spy)) as HI.
  fold st in HI. unfold st'. clearbody st. clear st'.
  revert st HI Ht. induction es' as [|e es' IH]; intros st HI Ht.
  - change (run [] st) with st. unfold rendered. by rewrite Ht.
  - apply Forall_cons in Hes as [He Hes]. rewrite run_step.
    destruct (step_spec e st HI) as [HI' Hc Ha Hr Hsrc].
    assert (tree (step e st) = None) as Ht'.
    { assert (src_of (step e st) = None) as H0.
      { rewrite Hsrc. unfold src_of. rewrite Ht.
        destruct e as [s| | |image type]; [by destruct (He s) | done ..]. }
      unfold src_of in H0. by destruct (tree (step e st)). }
    destruct (IH Hes (step e st) HI' Ht') as (H1 & H2 & H3 & H4 & H5 & H6).
    split; [done |]. split; [done |].
    rewrite H3, H4, H5, H6, Hc, Ha, Hr.
    rewrite (sm_assignments _ _ (step_sources e st)).
    assert (src_assignments (after_event e st) = src_assignments (world st))
      as ->.
    { destruct e as [s| | |image type]; [by destruct (He s) | | |];
        unfold after_event; rewrite ?Ht; try done.
      by destruct (timers (world st)). }
    assert (adds e st = 0%nat ∧ removes e st = 0%nat) as [-> ->].
    { unfold adds, removes.
      destruct e as [s| | |image type]; rewrite ?Ht; [by destruct (He s) | done ..]. }
    unfold status. rewrite Ht, Ht'. simpl.
    by rewrite app_nil_r, !Nat.add_0_r.
Qed.

Lemma X6_quiet_after_teardown_witness :
  let es := [Render (Some "/test.png"%string); Unmount] in
  let es' := [TimerFires; Dispatch 0 load; Dispatch 0 error_event; Unmount] in
  let st := run es (init ∅ None) in
  let st' := run es' st in
  tree st = None ∧ Forall not_Render es' ∧
  tree st' = None ∧ rendered st' = None ∧
  calls (world st') = calls (world st) ∧
  addEventListener_calls (world st') = addEventListener_calls (world st) ∧
  removeEventListener_calls (world st') = removeEventListener_calls (world st) ∧
  src_assignments (world st') = src_assignments (world st).
Proof.
  intros es es' st st'.
  assert (tree st = None) as H1 by reflexivity.
  assert (Forall not_Render es') as H2
    by (repeat (apply Forall_cons_2; [intros s; discriminate |]);
        apply Forall_nil_2).
  split; [exact H1 |]. split; [exact H2 |].
  exact (X6_quiet_after_teardown ∅ None es es' H1 H2).
Defined.

Lemma step_Dispatch k type st :
  Inv st →
  step (Dispatch k type) st =
    {| world := log_calls (notified (status st)
                             (loadingStatus ∘ Image <$> dispatched k type (tree st)))
                  (world st);
       tree := dispatched k type (tree st) |}.
Proof.
  intros [Hh Hs]. unfold step. by rewrite dispatchEvent_spec.
Qed.

(** X8.  Whatever has happened to an avatar with a mounted image, a load
    notification on its handle sets the status to ['loaded'] and renders the
    image element with the current source, an error notification sets it to
    ['error'] and renders nothing, and a notification on any other handle
    changes nothing at all. *)
Theorem X8_notifications_set_the_status c spy es t type k :
  let st := run es (init c spy) in
  tree st = Some t →
  status (step (Dispatch (image (Image t)) type) st) = Some (status_for type) ∧
  rendered (step (Dispatch (image (Image t)) type) st) =
    (if decide (type = load) then Some (img (src (Image t))) else None) ∧
  (k ≠ image (Image t) → step (Dispatch k type) st = st).
Proof.
  intros st Ht. pose proof (run_Inv es _ (Inv_init c spy)) as HI. fold st in HI.
  rewrite !step_Dispatch by done. unfold status, rendered. cbn [tree].
  rewrite Ht. simpl. rewrite decide_True by done. simpl.
  split; [done |]. split; [by destruct type |].
  intros Hk. rewrite decide_False by done. simpl.
  rewrite decide_True by done. rewrite log_calls_nil.
  destruct st; simpl in *. by subst.
Qed.

Lemma X8_notifications_set_the_status_witness :
  let es := [Render (Some "/test.png"%string)] in
  let t := {| imageLoadingStatus := loading;
              Image := {| image := 0; loadingStatus := loading;
                          src := Some "/test.png"%string |} |} in
  let st := run es (init ∅ None) in
  tree st = Some t ∧
  status (step (Dispatch (image (Image t)) error_event) st)
  = Some (status_for error_event) ∧
  rendered (step (Dispatch (image (Image t)) error_event) st) =
    (if decide (error_event = load) then Some (img (src (Image t))) else None) ∧
  (7%nat ≠ image (Image t) → step (Dispatch 7 error_event) st = st).
Proof.
  intros es t st.
  assert (tree st = Some t) as H by (vm_compute; reflexivity).
  split; [exact H |].
  exact (X8_notifications_set_the_status ∅ None es t error_event 7%nat H).
Defined.

Lemma step_TimerFires image rest st :
  Inv st → timers (world st) = image :: rest →
  step TimerFires st =
    {| world :=
         set_cache (λ c, {[_src (deref (world st) image)]} ∪ c)
           (log_calls
              (notified (status st)
                 (loadingStatus ∘ Image <$> dispatched image load (tree st)))
              (set_timers (λ _, rest) (world st)));
       tree := dispatched image load (tree st) |}.
Proof.
  intros [Hh Hs] Ht. unfold step. rewrite Ht. unfold timer_callback, bind.
  rewrite dispatchEvent_spec;
    [done | eapply handles_ok_same; [apply set_timers_same | exact Hh] | done].
Qed.

(** X9.  From any state without a mounted image and without pending loads,
    mounting an image with a non-empty source that is not cached gives
    ['loading'] and no image element; when the load of its handle is then
    notified the status is ['loaded'], the image element is rendered with the
    source, the callbacks have been invoked with ['loading'] and then
    ['loaded'], local one first each time, and the source is in the cache. *)
Theorem X9_mount_then_load c spy es s :
  let st := run es (init c spy) in
  let st1 := step (Render (Some s)) st in
  let st2 := step TimerFires st1 in
  tree st = None → timers (world st) = [] →
  s ≠ ""%string → s ∉ cache (world st) →
  status st1 = Some loading ∧ rendered st1 = None ∧
  status st2 = Some loaded ∧ rendered st2 = Some (img (Some s)) ∧
  calls (world st2) =
    calls (world st) ++
    [onLoadingStatusChange loading; onImageLoadingStatusChange loading;
     onLoadingStatusChange loaded; onImageLoadingStatusChange loaded] ∧
  cache (world st2) = {[s]} ∪ cache (world st) ∧
  timers (world st2) = [].
Proof.
  intros st st1 st2 Ht Htm Hs Hc.
  pose proof (run_Inv es _ (Inv_init c spy)) as HI. fold st in HI.
  assert (truthy (Some s) = true) as Htr
    by (simpl; by rewrite (proj2 (String.eqb_neq s "") Hs)).
  assert (status_of_source (Some s) (world st) = loading) as Hsrc.
  { unfold status_of_source. rewrite Htr. simpl.
    by rewrite bool_decide_eq_false_2. }
  destruct (Render_status (Some s) st HI) as [H1 H2];
    [unfold src_of; by rewrite Ht |].
  fold st1 in H1, H2. rewrite Hsrc in H1, H2. simpl in H2.
  destruct (step_spec (Render (Some s)) st HI) as [HI1 Hcalls _ _ _].
  fold st1 in HI1, Hcalls.
  destruct (step_tree (Render (Some s)) st) as [Ho Hso]. fold st1 in Ho, Hso.
  rewrite Ht in Ho.
  pose proof (step_sources (Render (Some s)) st) as [Hc1 _ _ Ht1 _ _].
  fold st1 in Hc1, Ht1. unfold after_event in Hc1, Ht1. rewrite Ht in Hc1, Ht1.
  destruct (setImage_effects (length (images (world st))) (Some s)
              (exec new_Image (world st))) as (_ & Htm' & Hc' & _).
  rewrite Htm' in Ht1. rewrite Hc' in Hc1. clear Htm' Hc'.
  assert (assigns (length (images (world st))) (Some s)
            (exec new_Image (world st)) = true) as Has.
  { unfold assigns. rewrite Htr. simpl. unfold deref, exec, new_Image. simpl.
    rewrite lookup_app_r by lia. rewrite Nat.sub_diag. simpl.
    by destruct s. }
  rewrite Has in Ht1. change (timers (exec new_Image (world st)))
    with (timers (world st)) in Ht1. rewrite Htm in Ht1. simpl in Ht1.
  change (cache (exec new_Image (world st))) with (cache (world st)) in Hc1.
  assert (_src (deref (world st1) (length (images (world st)))) = s) as Hh.
  { pose proof (run_holds (es ++ [Render (Some s)]) c spy) as Hh.
    rewrite run_snoc in Hh. fold st st1 in Hh. by apply (Hh _ (Some s)). }
  assert (st2 = step TimerFires st1) as Hst2 by done.
  rewrite (step_TimerFires _ [] st1 HI1 Ht1) in Hst2. clearbody st2. subst st2.
  clearbody st1. clearbody st.
  unfold status, rendered, src_of in *. cbn [world tree].
  destruct (tree st1) as [a|] eqn:Ha; [| done].
  rewrite Ht in Hcalls. cbn in Ho, Hso, H1, H2, Hcalls.
  injection Ho as Ho. injection Hso as Hso. injection H1 as H1.
  rewrite H1 in Hcalls.
  unfold dispatched. rewrite Ho, decide_True by done. cbn.
  split; [by rewrite H1 |]. split; [done |]. split; [done |].
  unfold AvatarImage_render. cbn. rewrite decide_True by done.
  split; [by rewrite Hso |]. rewrite Hcalls, Hh, Hc1, H1. cbn.
  split; [| done]. by rewrite <- app_assoc.
Qed.

Lemma X9_mount_then_load_witness :
  let es := [Render (Some "/x.png"%string); TimerFires; Unmount] in
  let s := "/a.png"%string in
  let st := run es (init ∅ None) in
  let st1 := step (Render (Some s)) st in
  let st2 := step TimerFires st1 in
  tree st = None ∧ timers (world st) = [] ∧
  s ≠ ""%string ∧ (s ∉ cache (world st)) ∧
  status st1 = Some loading ∧ rendered st1 = None ∧
  status st2 = Some loaded ∧ rendered st2 = Some (img (Some s)) ∧
  calls (world st2) =
    calls (world st) ++
    [onLoadingStatusChange loading; onImageLoadingStatusChange loading;
     onLoadingStatusChange loaded; onImageLoadingStatusChange loaded] ∧
  cache (world st2) = {[s]} ∪ cache (world st) ∧
  timers (world st2) = [].
Proof.
  intros es s st st1 st2.
  assert (tree st = None) as H1 by reflexivity.
  assert (timers (world st) = []) as H2 by reflexivity.
  assert (s ≠ ""%string) as H3 by discriminate.
  assert (s ∉ cache (world st)) as H4 by (vm_compute; set_solver).
  split; [exact H1 |]. split; [exact H2 |]. split; [exact H3 |].
  split; [exact H4 |].
  exact (X9_mount_then_load ∅ None es s H1 H2 H3 H4).
Defined.

Lemma X2_MockImage_src_round_trip_witness :
  let w := exec new_Image (world0 ∅ None) in
  let w' := exec (set_src 0 "/test.png") w in
  (0 < length (images w))%nat ∧
  eval (get_src 0) w' =
    (if String.eqb "/test.png" "" then eval (get_src 0) w
     else "/test.png"%string) ∧
  timers w' = timers w ++ (if String.eqb "/test.png" "" then [] else [0%nat]) ∧
  listeners (deref w' 0) = listeners (deref w 0) ∧
  (∀ k, k ≠ 0%nat → deref w' k = deref w k) ∧
  (naturalWidth_spy w = None →
   (0 <? eval (naturalWidth 0) w') = eval (complete 0) w') ∧
  eval (complete 0) w' =
    bool_decide (eval (get_src 0) w' = ""%string ∨
                 eval (get_src 0) w' ∈ cache w).
Proof.
  intros w w'.
  assert (0 < length (images w))%nat as H by (simpl; lia).
  split; [exact H |].
  exact (X2_MockImage_src_round_trip 0 "/test.png" w H).
Defined.

End ImageLoader.

(** * Properties of the fallback gate *)

Module FallbackGate.
Import FallbackModel.

(** The scenario of the test file: a fallback with a delay of 300 ms. *)
Example delayed_render :
  shown (run [Render (Some 300)] (init 0)) idle = None ∧
  shown (run [Render (Some 300); Advance 299] (init 0)) idle = None ∧
  shown (run [Render (Some 300); Advance 299; Advance 1] (init 0)) idle
  = Some span.
Proof. vm_compute. auto. Qed.

Lemma run_cons e es st : run (e :: es) st = run es (step e st).
Proof. done. Qed.


Lemma fire_canRender (ts : list Timer) (i : AvatarFallback) :
  canRender i = true →
  ∃ i', foldl (λ f t, setCanRender_true (owner t) f) (Some i) ts = Some i' ∧
        canRender i' = true ∧ key i' = key i ∧ delayMs i' = delayMs i ∧
        cleanup i' = cleanup i.
Proof.
  revert i. induction ts as [|t ts IH]; intros i Hi; simpl.
  - by exists i.
  - destruct (decide (key i = owner t)).
    + destruct (IH {| key := key i; canRender := true; delayMs := delayMs i;
                      cleanup := cleanup i |} eq_refl) as (i' & ? & ? & ? & ? & ?).
      by exists i'.
    + by apply IH.
Qed.


(** No event other than teardown takes a satisfied eligibility away. *)
Lemma step_canRender e st i :
  fallback st = Some i → canRender i = true → e ≠ Unmount →
  ∃ i', fallback (step e st) = Some i' ∧ canRender i' = true.
Proof.
  intros Hf Hc He. destruct e as [d | | dt]; [| done |]; unfold step.
  - rewrite Hf. unfold rerender. destruct (decide (d = delayMs i)).
    + by exists i.
    + destruct (effect _ _ _) as [c w']. simpl. eauto.
  - unfold advance; simpl. rewrite Hf.
    destruct (fire_canRender
      (filter (λ t, due t ≤ now (window st) + Z.max 0 dt) (pending (window st)))
      i Hc) as (i' & -> & ? & _).
    destruct (fallback st); eauto.
Qed.

Lemma run_canRender es st i :
  fallback st = Some i → canRender i = true → Forall (λ e, e ≠ Unmount) es →
  ∃ i', fallback (run es st) = Some i' ∧ canRender i' = true.
Proof.
  revert st i. induction es as [|e es IH]; intros st i Hf Hc Hes.
  - by exists i.
  - inversion Hes as [|? ? He Hes']; subst. rewrite run_cons.
    destruct (step_canRender e st i Hf Hc He) as (i1 & Hf1 & Hc1). eauto.
Qed.

Lemma waits_not_Unmount d es :
  Forall (waits d) es → Forall (λ e, e ≠ Unmount) es.
Proof.
  intros H. eapply Forall_impl; [exact H |].
  intros e [-> | [dt ->]]; done.
Qed.

(** While the delay stays the same and its timer is pending, the flag tells
    whether the scheduler has run at or past the due time. *)
Lemma run_waiting ms es : ∀ st i tid due,
  fallback st = Some i → delayMs i = Some ms → canRender i = false →
  pending (window st) = [{| timer_id := tid; due := due; owner := key i |}] →
  Forall (waits (Some ms)) es →
  ∃ i', fallback (run es st) = Some i' ∧
        canRender i' = delay_elapsed (now (window st)) due es.
Proof.
  induction es as [|e es IH]; intros st i tid du Hf Hd Hc Hp Hes.
  - exists i. by rewrite Hc.
  - apply Forall_cons in Hes as [He Hes']. rewrite run_cons.
    destruct He as [-> | [dt ->]].
    + assert (step (Render (Some ms)) st = st) as ->.
      { unfold step. rewrite Hf. unfold rerender.
        rewrite decide_True by done. destruct st; simpl in *. by subst. }
      simpl. eauto.
    + simpl. destruct (decide (du ≤ now (window st) + Z.max 0 dt)) as [Hle|Hgt].
      * rewrite bool_decide_eq_true_2 by done. simpl.
        apply run_canRender with
          (i := {| key := key i; canRender := true; delayMs := delayMs i;
                   cleanup := cleanup i |});
          [| done | by eapply waits_not_Unmount].
        unfold advance. rewrite Hp, Hf. simpl.
        rewrite filter_cons_True, filter_nil by done. simpl.
        by rewrite decide_True.
      * rewrite bool_decide_eq_false_2 by done. simpl.
        change (now (window st) + Z.max 0 dt)
          with (now (window (advance dt st))).
        apply (IH _ i tid du); try done.
        -- unfold advance. rewrite Hp, Hf. simpl.
           by rewrite filter_cons_False, filter_nil.
        -- unfold advance. rewrite Hp. simpl.
           by rewrite filter_cons_True, filter_nil.
Qed.

Lemma ok_init now0 : ok (init now0).
Proof.
  split; [by left | | done]. simpl. intros k Hk. by apply elem_of_nil in Hk.
Qed.

Lemma ok_cleaned st i :
  ok st → fallback st = Some i →
  pending (run_cleanup (cleanup i) (window st)) = [].
Proof.
  intros [[Hp | (i' & t & Hf & Hc & _ & Hp & _)] _ _] Hi.
  - destruct (cleanup i); simpl; [| done]. by rewrite Hp.
  - rewrite Hi in Hf. injection Hf as <-. rewrite Hc. simpl. rewrite Hp.
    by rewrite filter_cons_False, filter_nil by (intros H; by apply H).
Qed.

Lemma ok_effect st k d w :
  pending w = [] → next_id w = next_id (window st) → fired w = fired (window st) →
  ok st →
  ∀ cr, let '(c, w') := effect k d w in
  ok {| window := w'; mounts := mounts st;
        fallback := Some {| key := k; canRender := cr; delayMs := d;
                            cleanup := c |} |}.
Proof.
  intros Hp Hn Hfi [_ Hfired _] cr. destruct d as [ms|]; simpl.
  - split; simpl.
    + right.
      exists {| key := k; canRender := cr; delayMs := Some ms;
                cleanup := Some (next_id w) |},
             {| timer_id := next_id w; due := now w + Z.max 0 ms; owner := k |}.
      rewrite Hp. simpl. repeat split; try done; [lia |].
      rewrite Hfi. intros Hin. apply Hfired in Hin. lia.
    + rewrite Hfi, Hn. intros k' Hk'. apply Hfired in Hk'. lia.
    + intros ? ? [= <-]; simpl. intros [= <-]. lia.
  - split; simpl; [by left | | by intros ? ? [= <-]]. by rewrite Hfi, Hn.
Qed.

Lemma step_ok e st : ok st → ok (step e st).
Proof.
  intros Hok. destruct e as [d | | dt]; unfold step.
  - destruct (fallback st) as [i|] eqn:Hf.
    + unfold rerender. destruct (decide (d = delayMs i)).
      * destruct st; simpl in *. by subst.
      * pose proof (ok_effect st (key i) d (run_cleanup (cleanup i) (window st))
                      (ok_cleaned st i Hok Hf)) as H.
        destruct (effect _ _ _) as [c w'].
        apply (H ltac:(by destruct (cleanup i)) ltac:(by destruct (cleanup i))
                 Hok (canRender i)).
    + assert (pending (window st) = []) as Hp.
      { destruct Hok as [[Hp | (i' & t & Hf' & _)] _ _]; [done | congruence]. }
      unfold mount.
      pose proof (ok_effect st (mounts st) d (window st) Hp eq_refl eq_refl Hok
                    (bool_decide (d = None))) as H.
      destruct (effect _ _ _) as [c w']. destruct H as [H1 H2 H3].
      split; simpl in *; [| done | done].
      destruct H1 as [H1 | (i' & t & Hf' & H1)]; [by left |].
      right. exists i', t. done.
  - destruct (fallback st) as [i|] eqn:Hf; [| done].
    split; simpl; [| | done].
    + left. unfold unmount. by apply ok_cleaned.
    + destruct Hok as [_ Hfired _]. unfold unmount. by destruct (cleanup i).
  - unfold advance.
    destruct Hok as [[Hp | (i & t & Hf & Hc & Ho & Hp & Hlt & Hnf)] Hfired Hcl].
    + rewrite Hp. rewrite !filter_nil. simpl. split; simpl; [by left | |].
      * by rewrite app_nil_r.
      * done.
    + rewrite Hp, Hf. rewrite !filter_cons, !filter_nil.
      destruct (decide (due t ≤ now (window st) + Z.max 0 dt)) as [Hle|Hgt];
        simpl.
      * rewrite decide_False by tauto.
        split; simpl; [by left | |].
        -- intros k [Hk | Hk%list_elem_of_singleton]%elem_of_app;
             [auto | by subst].
        -- intros i' tid. case_decide; intros [= <-]; simpl; eauto.
      * rewrite decide_True by tauto.
        split; simpl; [| by rewrite app_nil_r | intros ? ? [= <-]; eauto].
        right. exists i, t. rewrite app_nil_r. done.
Qed.

Lemma run_ok es st : ok st → ok (run es st).
Proof.
  revert st. induction es as [|e es IH]; intros st Hok; [done |].
  rewrite run_cons. by apply IH, step_ok.
Qed.

Lemma ids_filter (P : Timer → Prop) {HP : ∀ t, Decision (P t)}
    (l : list Timer) k :
  k ∈ (timer_id <$> filter P l) → k ∈ (timer_id <$> l).
Proof.
  intros Hk. apply list_elem_of_fmap in Hk as (t & -> & Ht).
  apply list_elem_of_fmap_2. by apply list_elem_of_filter in Ht as [_ ?].
Qed.

Lemma gone_clearTimeout tid k w : gone tid w → gone tid (clearTimeout k w).
Proof.
  intros (? & Hp & ?). repeat split; try done. simpl.
  intros Hin. apply Hp. by eapply ids_filter.
Qed.

Lemma gone_run_cleanup tid c w : gone tid w → gone tid (run_cleanup c w).
Proof. destruct c; [apply gone_clearTimeout | done]. Qed.

Lemma gone_effect tid k d w : gone tid w → gone tid (effect k d w).2.
Proof.
  intros (Hlt & Hp & Hf). destruct d as [ms|]; [| done]. simpl.
  repeat split; simpl; [lia | | done].
  rewrite fmap_app. simpl.
  intros [Hin | Hin%list_elem_of_singleton]%elem_of_app; [done | lia].
Qed.

Lemma step_gone tid e st : gone tid (window st) → gone tid (window (step e st)).
Proof.
  intros Hg. destruct e as [d | | dt]; unfold step.
  - destruct (fallback st) as [i|].
    + unfold rerender. destruct (decide (d = delayMs i)); [done |].
      pose proof (gone_effect tid (key i) d _
                    (gone_run_cleanup tid (cleanup i) _ Hg)) as H.
      by destruct (effect _ _ _).
    + unfold mount. pose proof (gone_effect tid (mounts st) d _ Hg) as H.
      by destruct (effect _ _ _).
  - destruct (fallback st) as [i|]; [| done]. by apply gone_run_cleanup.
  - destruct Hg as (Hlt & Hp & Hf). unfold advance. repeat split; simpl.
    + done.
    + intros Hin. apply Hp. by eapply ids_filter.
    + intros [Hin | Hin]%elem_of_app; [done |]. apply Hp. by eapply ids_filter.
Qed.

Lemma run_gone tid es st : gone tid (window st) → gone tid (window (run es st)).
Proof.
  revert st. induction es as [|e es IH]; intros st Hg; [done |].
  rewrite run_cons. by apply IH, step_gone.
Qed.




(** A render with a changed delay, in a reachable state. *)
Lemma Render_changed st i d' :
  ok st → fallback st = Some i → d' ≠ delayMs i →
  step (Render d') st =
    {| window :=
         {| now := now (window st);
            pending :=
              match d' with
              | Some ms => [{| timer_id := next_id (window st);
                               due := now (window st) + Z.max 0 ms;
                               owner := key i |}]
              | None => []
              end;
            next_id :=
              match d' with
              | Some _ => S (next_id (window st))
              | None => next_id (window st)
              end;
            fired := fired (window st) |};
       mounts := mounts st;
       fallback :=
         Some {| key := key i; canRender := canRender i; delayMs := d';
                 cleanup := match d' with
                            | Some _ => Some (next_id (window st))
                            | None => None
                            end |} |}.
Proof.
  intros Hok Hf Hd. pose proof (ok_cleaned st i Hok Hf) as Hclean.
  unfold step. rewrite Hf. unfold rerender. rewrite decide_False by done.
  destruct d' as [ms|]; simpl.
  - rewrite Hclean. by destruct (cleanup i).
  - f_equal. destruct (cleanup i) as [tid|]; simpl in *.
    + unfold clearTimeout. by rewrite Hclean.
    + destruct (window st); simpl in *. by subst.
Qed.




(** C7.  When an instance is torn down while its timer is pending, the
    teardown itself removes the timer from the scheduler, and whatever
    happens afterwards its callback does not run. *)
Theorem C7_teardown_cancels_timer (now0 : Z) (es es' : list Event)
    (i : AvatarFallback) (timerId : nat) :
  let st := run es (init now0) in
  fallback st = Some i → cleanup i = Some timerId →
  timerId ∈ (timer_id <$> pending (window st)) →
  let st' := step Unmount st in
  fallback st' = None ∧
  (timerId ∉ (timer_id <$> pending (window st'))) ∧
  (timerId ∉ fired (window (run es' st'))).
Proof.
  intros st Hf Hc Hin st'.
  assert (ok st) as Hok by apply run_ok, ok_init.
  assert (st' = {| window := unmount i (window st); mounts := mounts st;
                   fallback := None |}) as Hst'
    by (unfold st', step; by rewrite Hf).
  clearbody st' st.
  pose proof (ok_cleaned st i Hok Hf) as Hclean.
  assert (gone timerId (window st')) as Hg.
  { rewrite Hst'. unfold unmount. simpl. split; [| split].
    - rewrite Hc. simpl. by eapply ok_cleanup.
    - rewrite Hclean. apply not_elem_of_nil.
    - rewrite Hc. simpl.
      destruct Hok as [[Hp | (i0 & t & Hf0 & Hc0 & _ & Hp & _ & Hnf)] _ _].
      + rewrite Hp in Hin. by apply elem_of_nil in Hin.
      + rewrite Hp in Hin. apply list_elem_of_singleton in Hin. by subst. }
  split; [by rewrite Hst' |]. split; [apply Hg |].
  by apply (run_gone timerId es' st').
Qed.

Lemma C7_teardown_cancels_timer_witness :
  let es := [Render (Some 300); Advance 100] in
  let es' := [Advance 1000; Render (Some 10); Advance 1000] in
  let i := {| key := 0; canRender := false; delayMs := Some 300;
              cleanup := Some 1%nat |} in
  let st := run es (init 0) in
  let st' := step Unmount st in
  fallback st = Some i ∧ cleanup i = Some 1%nat ∧
  1%nat ∈ (timer_id <$> pending (window st)) ∧
  fallback st' = None ∧
  (1%nat ∉ (timer_id <$> pending (window st'))) ∧
  (1%nat ∉ fired (window (run es' st'))).
Proof.
  intros es es' i st st'.
  assert (fallback st = Some i) as H1 by reflexivity.
  assert (cleanup i = Some 1%nat) as H2 by reflexivity.
  assert (1%nat ∈ (timer_id <$> pending (window st))) as H3
    by (apply list_elem_of_singleton; reflexivity).
  split; [exact H1 |]. split; [exact H2 |]. split; [exact H3 |].
  exact (C7_teardown_cancels_timer 0 es es' i 1%nat H1 H2 H3).
Defined.

(** C10.  Once [canRender] is true it stays true for as long as the instance
    is mounted, whatever is rendered and however time passes; from then on
    the fallback is hidden exactly when the shared status is ['loaded']. *)
Theorem C10_eligibility_monotone (st : State) (i : AvatarFallback)
    (es : list Event) :
  fallback st = Some i → canRender i = true →
  Forall (λ e, e ≠ Unmount) es →
  ∃ i', fallback (run es st) = Some i' ∧ canRender i' = true ∧
        ∀ imageLoadingStatus,
          AvatarFallback_render i' imageLoadingStatus = None ↔
          imageLoadingStatus = loaded.
Proof.
  intros Hf Hc Hes.
  destruct (run_canRender es st i Hf Hc Hes) as (i' & Hf' & Hc').
  exists i'. split; [done |]. split; [done |].
  intros s. unfold AvatarFallback_render. rewrite Hc'. simpl.
  case_bool_decide as Hs; split; try done.
Qed.

Lemma C10_eligibility_monotone_witness :
  let st := run [Render None] (init 0) in
  let i := {| key := 0; canRender := true; delayMs := None; cleanup := None |} in
  let es := [Render (Some 300); Advance 100; Render (Some 0); Render None] in
  fallback st = Some i ∧ canRender i = true ∧
  Forall (λ e, e ≠ Unmount) es ∧
  ∃ i', fallback (run es st) = Some i' ∧ canRender i' = true ∧
        ∀ imageLoadingStatus,
          AvatarFallback_render i' imageLoadingStatus = None ↔
          imageLoadingStatus = loaded.
Proof.
  intros st i es.
  assert (fallback st = Some i) as H1 by reflexivity.
  assert (canRender i = true) as H2 by reflexivity.
  assert (Forall (λ e, e ≠ Unmount) es) as H3
    by (repeat (apply Forall_cons_2; [discriminate |]); apply Forall_nil_2).
  split; [exact H1 |]. split; [exact H2 |]. split; [exact H3 |].
  exact (C10_eligibility_monotone st i es H1 H2 H3).
Defined.

(** ** Further properties of the fallback *)

Lemma effect_now k d w : now (effect k d w).2 = now w.
Proof. by destruct d. Qed.

Lemma run_cleanup_now c w : now (run_cleanup c w) = now w.
Proof. by destruct c. Qed.

Lemma step_now e st :
  now (window (step e st)) =
    now (window st) + match e with Advance dt => Z.max 0 dt | _ => 0 end.
Proof.
  destruct e as [d| |dt]; unfold step.
  - destruct (fallback st) as [i|].
    + unfold rerender. destruct (decide _); simpl; [lia |].
      pose proof (effect_now (key i) d (run_cleanup (cleanup i) (window st))) as H.
      destruct (effect _ _ _). simpl in *. rewrite H, run_cleanup_now. lia.
    + unfold mount. pose proof (effect_now (mounts st) d (window st)) as H.
      destruct (effect _ _ _). simpl in *. lia.
  - destruct (fallback st) as [i|]; simpl; [| lia].
    unfold unmount. rewrite run_cleanup_now. lia.
  - done.
Qed.

Lemma run_now es st : now (window (run es st)) = now (window st) + elapsed es.
Proof.
  revert st. induction es as [|e es IH]; intros st.
  - change (run [] st) with st. simpl. lia.
  - rewrite run_cons, IH, step_now. simpl. destruct e; lia.
Qed.





Lemma step_one_timer e st : ok st → one_timer st → one_timer (step e st).
Proof.
  intros Hok H1. destruct e as [d| |dt].
  - destruct (fallback st) as [i|] eqn:Hf.
    + destruct (decide (d = delayMs i)) as [->|Hne].
      * assert (step (Render (delayMs i)) st = st) as ->; [| done].
        unfold step. rewrite Hf. unfold rerender. rewrite decide_True by done.
        destruct st; simpl in *. by subst.
      * rewrite (Render_changed st i d Hok Hf Hne). unfold one_timer. simpl.
        destruct d as [ms|]; [| done]. right. eexists.
        split; [done |]. split; [done |]. split; [done |]. simpl. lia.
    + unfold one_timer in H1. rewrite Hf in H1.
      unfold step. rewrite Hf. unfold mount, one_timer.
      destruct d as [ms|]; simpl; [| done]. rewrite H1. right. eexists.
      split; [done |]. split; [done |]. split; [done |]. simpl. lia.
  - unfold step, one_timer. destruct (fallback st) as [i|] eqn:Hf.
    + simpl. unfold unmount. by apply ok_cleaned.
    + unfold one_timer in H1. rewrite Hf in H1. by rewrite Hf.
  - unfold one_timer in *. unfold step, advance. simpl.
    destruct (fallback st) as [i|] eqn:Hf.
    + destruct (delayMs i) as [ms|] eqn:Hd.
      * destruct H1 as [[Hp Hc] | (t & Hp & Hcl & Ho & Hdue)].
        -- rewrite Hp, !filter_nil. simpl. rewrite Hd. by left.
        -- rewrite Hp, !filter_cons, !filter_nil.
           destruct (decide (due t ≤ now (window st) + Z.max 0 dt)); simpl.
           ++ rewrite (decide_True (P := key i = owner t)) by done.
              rewrite (decide_False (P := ¬ _)) by tauto.
              simpl. rewrite Hd. by left.
           ++ rewrite (decide_True (P := ¬ _)) by tauto.
              rewrite Hd. right. exists t.
              split; [done |]. split; [done |]. split; [done |]. lia.
      * destruct H1 as [Hp Hc]. rewrite Hp, !filter_nil. simpl. by rewrite Hd.
    + rewrite H1, !filter_nil. done.
Qed.

(** X11.  Whatever has happened to a fallback, no timer is pending when it
    is not mounted or has no delay; with a delay at most one timer is
    pending, the one its cleanup will clear, due no later than the delay from
    now; and a fallback with a delay that is not yet eligible always has that
    timer pending. *)
Theorem X11_at_most_one_timer (now0 : Z) (es : list Event) :
  let st := run es (init now0) in
  match fallback st with
  | None => pending (window st) = []
  | Some i =>
      match delayMs i with
      | None => pending (window st) = [] ∧ cleanup i = None
      | Some ms =>
          (pending (window st) = [] ∧ canRender i = true) ∨
          ∃ t, pending (window st) = [t] ∧ cleanup i = Some (timer_id t) ∧
               owner t = key i ∧ due t ≤ now (window st) + Z.max 0 ms
      end
  end.
Proof.
  change (one_timer (run es (init now0))).
  induction es as [|e es IH] using rev_ind; [done |].
  unfold run. rewrite foldl_app. simpl. fold (run es (init now0)).
  apply step_one_timer; [apply run_ok, ok_init | done].
Qed.

Lemma delay_elapsed_last now due es dt :
  due ≤ now + elapsed (es ++ [Advance dt]) →
  delay_elapsed now due (es ++ [Advance dt]) = true.
Proof.
  revert now. induction es as [|e es IH]; intros now; simpl.
  - intros H. rewrite bool_decide_eq_true_2; [done | lia].
  - destruct e as [d| |dt']; try apply IH.
    intros H. rewrite IH; [apply orb_true_r | lia].
Qed.

(** X13.  A fallback mounted with a delay, in any state reached before, is
    rendered once the clock has moved on by at least the delay since the
    mount, the delay staying the same, when the status is not ['loaded']. *)
Theorem X13_at_the_delay (now0 : Z) (es0 es : list Event) (ms dt : Z)
    (imageLoadingStatus : ImageLoadingStatus) :
  let st0 := run es0 (init now0) in
  fallback st0 = None → Forall (waits (Some ms)) es →
  Z.max 0 ms ≤ elapsed (es ++ [Advance dt]) →
  imageLoadingStatus ≠ loaded →
  shown (run (Render (Some ms) :: es ++ [Advance dt]) st0) imageLoadingStatus
  = Some span.
Proof.
  intros st0 Hf Hes Hle Hs.
  assert (ok st0) as Hok by apply run_ok, ok_init.
  assert (pending (window st0) = []) as Hp.
  { destruct Hok as [[Hp | (i' & t & Hf' & _)] _ _]; [done | congruence]. }
  rewrite run_cons.
  destruct (run_waiting ms (es ++ [Advance dt]) (step (Render (Some ms)) st0)
              {| key := mounts st0; canRender := false; delayMs := Some ms;
                 cleanup := Some (next_id (window st0)) |}
              (next_id (window st0)) (now (window st0) + Z.max 0 ms))
    as (i & Hi & Hc); try done.
  - unfold step. by rewrite Hf.
  - unfold step. rewrite Hf. simpl. by rewrite Hp.
  - apply Forall_app. split; [done |]. apply Forall_singleton. right. by exists dt.
  - unfold shown. rewrite Hi. simpl. unfold AvatarFallback_render.
    rewrite Hc, delay_elapsed_last, bool_decide_eq_true_2; [done | done |].
    rewrite step_now. lia.
Qed.

Lemma X13_at_the_delay_witness :
  let es0 := [Render None; Advance 50; Unmount] in
  let es := [Advance 100; Render (Some 300)] in
  let st0 := run es0 (init 0) in
  fallback st0 = None ∧ Forall (waits (Some 300)) es ∧
  Z.max 0 300 ≤ elapsed (es ++ [Advance 200]) ∧
  error ≠ loaded ∧
  shown (run (Render (Some 300) :: es ++ [Advance 200]) st0) error = Some span.
Proof.
  intros es0 es st0.
  assert (fallback st0 = None) as H1 by reflexivity.
  assert (Forall (waits (Some 300)) es) as H2.
  { apply Forall_cons_2; [right; by exists 100 |].
    apply Forall_cons_2; [by left | apply Forall_nil_2]. }
  assert (Z.max 0 300 ≤ elapsed (es ++ [Advance 200])) as H3
    by (vm_compute; discriminate).
  assert (error ≠ loaded) as H4 by discriminate.
  split; [exact H1 |]. split; [exact H2 |]. split; [exact H3 |].
  split; [exact H4 |].
  exact (X13_at_the_delay 0 es0 es 300 200 error H1 H2 H3 H4).
Defined.

End FallbackGate.

(** * Properties of the whole avatar *)

Module Composition.
Import AvatarTree.

Lemma fallback_advance dt st :
  FallbackModel.fallback (FallbackModel.advance dt st) = None ↔
  FallbackModel.fallback st = None.
Proof.
  unfold FallbackModel.advance; simpl.
  generalize (filter (λ t, FallbackModel.due t ≤
                           FallbackModel.now (FallbackModel.window st) + Z.max 0 dt)
                (FallbackModel.pending (FallbackModel.window st))).
  intros l. generalize (FallbackModel.fallback st). clear st.
  induction l as [|t l IH]; intros f; simpl; [done |].
  rewrite IH. unfold FallbackModel.setCanRender_true.
  destruct f as [i|]; [| done]. by destruct (decide _).
Qed.

Lemma owner_None (t : option ImageModel.Avatar) :
  ImageModel.owner t = None ↔ t = None.
Proof. by destruct t. Qed.

Lemma src_of_None st : ImageModel.src_of st = None ↔ ImageModel.tree st = None.
Proof. unfold ImageModel.src_of. by destruct (ImageModel.tree st). Qed.

Lemma fallback_Render d st :
  FallbackModel.fallback (FallbackModel.step (FallbackModel.Render d) st) ≠ None.
Proof.
  unfold FallbackModel.step. destruct (FallbackModel.fallback st) as [i|].
  - by destruct (FallbackModel.rerender d i (FallbackModel.window st)).
  - by destruct (FallbackModel.mount (FallbackModel.mounts st) d
                   (FallbackModel.window st)).
Qed.

Lemma fallback_Unmount st :
  FallbackModel.fallback (FallbackModel.step FallbackModel.Unmount st) = None
  ↔ True.
Proof.
  unfold FallbackModel.step.
  by destruct (FallbackModel.fallback st) eqn:H; [| rewrite H].
Qed.

Lemma step_together e st : together st → together (step e st).
Proof.
  unfold together. intros H.
  destruct e as [d s| | |image type|dt]; cbn [step image_side fallback_side].
  - rewrite <- src_of_None.
    rewrite (proj2 (ImageLoader.step_tree (ImageModel.Render s) _)).
    pose proof (fallback_Render d (fallback_side st)). split; [done | tauto].
  - rewrite <- src_of_None.
    rewrite (proj2 (ImageLoader.step_tree ImageModel.Unmount _)).
    by rewrite fallback_Unmount.
  - rewrite <- H, <- !owner_None.
    by rewrite (proj1 (ImageLoader.step_tree ImageModel.TimerFires _)).
  - rewrite <- H, <- !owner_None.
    by rewrite (proj1 (ImageLoader.step_tree (ImageModel.Dispatch image type) _)).
  - change (FallbackModel.step (FallbackModel.Advance dt) (fallback_side st))
      with (FallbackModel.advance dt (fallback_side st)).
    by rewrite fallback_advance.
Qed.

Lemma step_image_Inv e st :
  ImageModel.Inv (image_side st) → ImageModel.Inv (image_side (step e st)).
Proof.
  intros H. destruct e; cbn [step image_side]; try done;
    by apply ImageLoader.step_spec.
Qed.

Lemma tree_run_snoc es e st : run (es ++ [e]) st = step e (run es st).
Proof. unfold run. by rewrite foldl_app. Qed.

Lemma run_reachable es c spy now0 :
  let st := run es (init c spy now0) in
  ImageModel.Inv (image_side st) ∧ together st.
Proof.
  induction es as [|e es [IH1 IH2]] using rev_ind.
  - split; [apply ImageLoader.Inv_init | done].
  - rewrite tree_run_snoc.
    split; [by apply step_image_Inv | by apply step_together].
Qed.

(** What the children render in a state where the Root has been told the
    status of its image and the children are mounted together. *)
Lemma settled_elements st :
  ImageModel.Inv (image_side st) → together st →
  fallback_element st =
    match image_element st with
    | Some _ => None
    | None => if eligible st then Some FallbackModel.span else None
    end.
Proof.
  intros [_ Hs] Ht. unfold together in Ht.
  unfold fallback_element, image_element, eligible, context,
    FallbackModel.shown, ImageModel.rendered.
  destruct (ImageModel.tree (image_side st)) as [t|] eqn:Htree.
  - destruct (Hs t eq_refl) as [_ Heq]. simpl.
    unfold ImageModel.AvatarImage_render. rewrite Heq.
    destruct (FallbackModel.fallback (fallback_side st)) as [i|] eqn:Hf.
    + simpl. unfold FallbackModel.AvatarFallback_render.
      destruct (decide (ImageModel.loadingStatus (ImageModel.Image t) = loaded))
        as [->|Hne].
      * by rewrite andb_false_r.
      * rewrite bool_decide_eq_true_2 by done. by rewrite andb_true_r.
    + discriminate (proj2 Ht eq_refl).
  - simpl. by rewrite (proj1 Ht eq_refl).
Qed.

Lemma step_eligible e st :
  e ≠ Unmount → eligible st = true → eligible (step e st) = true.
Proof.
  unfold eligible. intros He H.
  destruct (FallbackModel.fallback (fallback_side st)) as [i|] eqn:Hf; [| done].
  destruct e as [d s| | |image type|dt]; cbn [step fallback_side];
    rewrite ?Hf; try done.
  - destruct (FallbackGate.step_canRender (FallbackModel.Render d)
                (fallback_side st) i Hf H) as (i' & -> & ?); done.
  - destruct (FallbackGate.step_canRender (FallbackModel.Advance dt)
                (fallback_side st) i Hf H) as (i' & -> & ?); done.
Qed.

(** X14.  An avatar whose fallback is mounted without a delay shows exactly
    one of its two children after every event until it is torn down,
    whatever its sources, its later delays and the notifications are. *)
Theorem X14_never_empty_without_delay c spy now0 es0 es src :
  let st0 := run es0 (init c spy now0) in
  let st := run (Render None src :: es) st0 in
  ImageModel.tree (image_side st0) = None →
  Forall (λ e, e ≠ Unmount) es →
  (image_element st = None ↔ fallback_element st = Some FallbackModel.span) ∧
  (is_Some (image_element st) ↔ fallback_element st = None).
Proof.
  intros st0 st Ht Hes.
  assert (eligible st = true) as He.
  { unfold st. clear st.
    assert (eligible (step (Render None src) st0) = true) as H0.
    { destruct (run_reachable es0 c spy now0) as [_ Htog]. fold st0 in Htog.
      apply Htog in Ht. unfold eligible. cbn [step fallback_side].
      unfold FallbackModel.step. by rewrite Ht. }
    change (run (Render None src :: es) st0)
      with (run es (step (Render None src) st0)).
    generalize dependent (step (Render None src) st0). clear Ht.
    induction es as [|e es IH]; intros st1 H1; [done |].
    apply Forall_cons in Hes as [He Hes].
    change (run (e :: es) st1) with (run es (step e st1)).
    apply IH; [done |]. by apply step_eligible. }
  destruct (run_reachable (es0 ++ Render None src :: es) c spy now0)
    as [HI Htog].
  unfold run in HI, Htog. rewrite foldl_app in HI, Htog.
  fold (run es0 (init c spy now0)) in HI, Htog. fold st0 in HI, Htog.
  fold (run (Render None src :: es) st0) in HI, Htog. fold st in HI, Htog.
  rewrite (settled_elements st HI Htog), He. destruct (image_element st); split; split; done.
Qed.

(** X10.  Whatever has happened to an avatar with both children, once an
    event is through the fallback is rendered exactly when the image element
    is not and the fallback is eligible; so the two are never rendered
    together. *)
Theorem X10_image_or_fallback c spy now0 es :
  let st := run es (init c spy now0) in
  fallback_element st =
    match image_element st with
    | Some _ => None
    | None => if eligible st then Some FallbackModel.span else None
    end.
Proof.
  intros st. destruct (run_reachable es c spy now0) as [HI Htog].
  by apply settled_elements.
Qed.

Lemma X14_never_empty_without_delay_witness :
  let es0 := [Render (Some 300) None; Unmount] in
  let es := [TimerFires; Advance 5;
             Render (Some 100) (Some "/b.png"%string); TimerFires] in
  let src := Some "/a.png"%string in
  let st0 := run es0 (init ∅ None 0) in
  let st := run (Render None src :: es) st0 in
  ImageModel.tree (image_side st0) = None ∧
  Forall (λ e, e ≠ Unmount) es ∧
  (image_element st = None ↔ fallback_element st = Some FallbackModel.span) ∧
  (is_Some (image_element st) ↔ fallback_element st = None).
Proof.
  intros es0 es src st0 st.
  assert (ImageModel.tree (image_side st0) = None) as H1 by reflexivity.
  assert (Forall (λ e, e ≠ Unmount) es) as H2
    by (repeat (apply Forall_cons_2; [discriminate |]); apply Forall_nil_2).
  split; [exact H1 |]. split; [exact H2 |].
  exact (X14_never_empty_without_delay ∅ None 0 es0 es src H1 H2).
Defined.
End Composition.
